(** * Entropy: the scope-tracking visitor of [tools/main.py]

    A shallow embedding of the analyzer found in [tools/main.py]: the
    manually indexed [Stack], the three [visit_*] methods of [Analyzer]
    and the entropy formula, followed by the properties the specification
    states about them.

    Modelling choices.
    - Python [int] is [Z].  A Python [float] is a binary64 number; a
      finite one is a rational, and the embedding holds it as that
      rational ([Q]).  Each float operation of the source is the exact
      operation followed by [round64], rounding to the nearest binary64
      number, ties to even, subnormal numbers included; the true
      division of two integers raises [OverflowError] when its rounded
      quotient is beyond the largest float.  [round64] is checked
      against the Standard Library's specification of IEEE 754
      ([SpecFloat]) on the operands the analyzer meets.
    - The text of the [print] calls is not embedded: the output log
      holds, for each scope, the values they show, the entropy as it is
      before [percent] is applied to it.
    - A Python exception is an outcome [Raise e].  Mutations performed
      before the exception was raised are kept, as in Python; the world
      is threaded through failures.
    - The interpreter's recursion limit is not modelled: trees are finite
      and the traversal is structural. *)

From Stdlib Require Import List ZArith QArith Qminmax Qround Qabs Qpower.
From Stdlib Require Import String Bool Lia Lqa SpecFloat.
Import ListNotations.

Local Open Scope Z_scope.

Set Warnings "-register-all".

(** ** Exceptions and outcomes *)

Inductive exn : Type :=
| IndexError
| KeyError
| TypeError
| ZeroDivisionError
| OverflowError.

Inductive outcome (A : Type) : Type :=
| Ok (a : A)
| Raise (e : exn).

Arguments Ok {A} a.
Arguments Raise {A} e.

Definition outcome_bind {A B : Type} (o : outcome A) (k : A -> outcome B)
  : outcome B :=
  match o with
  | Ok a => k a
  | Raise e => Raise e
  end.

(** ** Python list primitives used by [Stack]

    [l[i]] and [del l[i]] accept a negative index, counted from the end,
    and raise [IndexError] when the index falls outside the list. *)

Module PyList.

Definition normalize_index (len i : Z) : option nat :=
  let j := if i <? 0 then i + len else i in
  if (0 <=? j) && (j <? len) then Some (Z.to_nat j) else None.

Definition len {A : Type} (l : list A) : Z := Z.of_nat (List.length l).

Definition append {A : Type} (l : list A) (e : A) : list A := l ++ [e].

Definition getitem {A : Type} (l : list A) (i : Z) : outcome A :=
  match normalize_index (len l) i with
  | Some j =>
      match nth_error l j with
      | Some x => Ok x
      | None => Raise IndexError
      end
  | None => Raise IndexError
  end.

Definition delitem {A : Type} (l : list A) (i : Z) : outcome (list A) :=
  match normalize_index (len l) i with
  | Some j => Ok (firstn j l ++ skipn (S j) l)
  | None => Raise IndexError
  end.

(** In-place mutation of the object stored at [l[i]]: the list keeps
    the same cell, whose contents become [x]. *)
Definition setitem {A : Type} (l : list A) (i : Z) (x : A)
  : outcome (list A) :=
  match normalize_index (len l) i with
  | Some j => Ok (firstn j l ++ x :: skipn (S j) l)
  | None => Raise IndexError
  end.

(** [reduce(f, l)] without an initial value. *)
Definition reduce {A : Type} (f : A -> A -> A) (l : list A) : outcome A :=
  match l with
  | [] => Raise TypeError
  | x :: xs => Ok (fold_left f xs x)
  end.

End PyList.

(** ** [class Stack] *)

Module Stack.

Record t (A : Type) : Type := Make {
  inner : list A;
  depth : Z
}.

Arguments Make {A} inner depth.
Arguments inner {A} _.
Arguments depth {A} _.

Definition init {A : Type} : t A := Make [] (-1).

Definition push {A : Type} (e : A) (s : t A) : t A :=
  Make (PyList.append (inner s) e) (depth s + 1).

(** [pop] raises on its first statement, before any field is written. *)
Definition pop {A : Type} (s : t A) : outcome (A * t A) :=
  outcome_bind (PyList.getitem (inner s) (depth s)) (fun e =>
  outcome_bind (PyList.delitem (inner s) (depth s)) (fun l =>
  Ok (e, Make l (depth s - 1)))).

Definition peek {A : Type} (s : t A) : outcome A :=
  PyList.getitem (inner s) (depth s).

Definition len {A : Type} (s : t A) : Z := PyList.len (inner s).

(** The object returned by [peek] is the one stored in the list, so a
    mutation made through it is seen by the stack. *)
Definition mutate_peek {A : Type} (x : A) (s : t A) : outcome (t A) :=
  outcome_bind (PyList.setitem (inner s) (depth s) x) (fun l =>
  Ok (Make l (depth s))).

(** The stack whose cells are [l], bottom first, in its consistent
    state. *)
Definition of_list {A : Type} (l : list A) : t A :=
  Make l (PyList.len l - 1).

Inductive op (A : Type) : Type :=
| Push (e : A)
| Pop.

Arguments Push {A} e.
Arguments Pop {A}.

(** One operation of a client that goes on after a failed [pop], which
    has written nothing. *)
Definition step {A : Type} (s : t A) (o : op A) : t A :=
  match o with
  | Push e => push e s
  | Pop =>
      match pop s with
      | Ok (_, s') => s'
      | Raise _ => s
      end
  end.

Definition run {A : Type} (ops : list (op A)) (s : t A) : t A :=
  fold_left step ops s.

End Stack.

(** ** Python floats

    A finite binary64 number is [m * 2^e] with [|m| < 2^53] and
    [-1074 <= e <= 971].  [round64 a] is the binary64 number nearest to
    the rational [a], the one with an even [m] when two are as near:
    [cexp a] is the exponent of the binade of [a] (that of the subnormal
    numbers for a tiny [a]) and [rne] rounds the scaled number to the
    nearest integer.  Nothing bounds the exponent from above here:
    the one operation of the source that can exceed the largest float,
    the division of integers, tests for it. *)

Definition pow2 (e : Z) : Q := (2 ^ e)%Q.

(** For [0 < a], the [k] with [2^k <= a < 2^(k+1)]. *)
Definition flog2 (a : Q) : Z :=
  let k := Z.log2 (Qnum a) - Z.log2 (Zpos (Qden a)) in
  if Qle_bool (pow2 k) a then k else k - 1.

Definition rne (r : Q) : Z :=
  let f := Qfloor r in
  match (r - inject_Z f ?= 1 # 2)%Q with
  | Lt => f
  | Gt => f + 1
  | Eq => if Z.even f then f else f + 1
  end.

Definition cexp (a : Q) : Z := Z.max (flog2 (Qabs a) - 52) (-1074).

Definition round64 (a : Q) : Q :=
  if Qeq_bool a 0 then 0%Q
  else Qred (inject_Z (rne (a / pow2 (cexp a))) * pow2 (cexp a)).

(** [n / m] on two [int]: the quotient correctly rounded, a
    [ZeroDivisionError] for [m == 0], an [OverflowError] when the
    rounded quotient is not a finite float. *)
Definition truediv (n m : Z) : outcome Q :=
  if m =? 0 then Raise ZeroDivisionError
  else
    let q := round64 (inject_Z n / inject_Z m) in
    if Qle_bool (pow2 1024) (Qabs q) then Raise OverflowError else Ok q.

(** [x - y] and [x * y] with a float operand.  The differences and
    products the analyzer forms stay below the largest float: a
    difference is [1 - q] for a finite [q], a product is one of scores,
    which lie between 0 and 1, or of a score and 100. *)
Definition fsub (x y : Q) : Q := round64 (x - y).

Definition fmul (x y : Q) : Q := round64 (x * y).

(** ** Scores *)

Definition MAX_CALLS : Z := 10.

Definition func_entropy (n_calls max_calls : Z) : outcome Q :=
  outcome_bind (truediv n_calls max_calls) (fun q =>
  Ok (Qmax (Qmin (fsub 1 q) 1) 0)).

(** [int(v * 100.0)]: the product is a float, [int] drops its
    fractional part. *)
Definition percent (v : Q) : Z :=
  let p := fmul v 100 in Z.quot (Qnum p) (Z.pos (Qden p)).

(** ** Syntax trees

    [ast.NodeVisitor.visit] dispatches on the class of the node; the
    analyzer overrides it for [ClassDef], [FunctionDef] and [Call], every
    other class falls through to [generic_visit].  A node carries the
    child nodes [generic_visit] iterates over, in field order. *)

Inductive node : Type :=
| ClassDef (name : string) (children : list node)
| FunctionDef (name : string) (children : list node)
| Call (children : list node)
| Other (children : list node).

Definition children (n : node) : list node :=
  match n with
  | ClassDef _ cs | FunctionDef _ cs | Call cs | Other cs => cs
  end.

(** ** Scope contexts

    The two dictionaries pushed by the analyzer, [{"type": "class",
    "functions": [...]}] and [{"type": "func", "calls": n}].  No key is
    ever added or removed, so a dictionary is one of two shapes; looking
    up a key of the other shape raises [KeyError]. *)

Inductive context : Type :=
| ClassContext (functions : list Q)
| FunctionContext (calls : Z).

Definition ctx_type (c : context) : string :=
  match c with
  | ClassContext _ => "class"
  | FunctionContext _ => "func"
  end.

Definition ctx_calls (c : context) : outcome Z :=
  match c with
  | FunctionContext n => Ok n
  | ClassContext _ => Raise KeyError
  end.

Definition ctx_functions (c : context) : outcome (list Q) :=
  match c with
  | ClassContext fs => Ok fs
  | FunctionContext _ => Raise KeyError
  end.

(** [c["calls"] += 1] *)
Definition incr_calls (c : context) : outcome context :=
  outcome_bind (ctx_calls c) (fun n => Ok (FunctionContext (n + 1))).

(** [c["functions"].append(entropy)] *)
Definition append_function (entropy : Q) (c : context) : outcome context :=
  outcome_bind (ctx_functions c) (fun fs =>
  Ok (ClassContext (PyList.append fs entropy))).

(** ** Output

    One record per group of [print] calls: the kind and name of the
    scope, the count printed on the second line and the entropy handed
    to the formatter on the third. *)

Inductive scope_kind : Type :=
| KClass
| KFunction.

Record report : Type := Report {
  r_kind : scope_kind;
  r_name : string;
  r_count : Z;
  r_entropy : Q
}.

(** ** The analyzer's world: its stack and what was printed so far *)

Record world : Type := World {
  stack : Stack.t context;
  stdout : list report
}.

Definition M (A : Type) : Type := world -> outcome A * world.

Definition ret {A : Type} (a : A) : M A := fun w => (Ok a, w).

Definition bind {A B : Type} (m : M A) (k : A -> M B) : M B :=
  fun w =>
    match m w with
    | (Ok a, w') => k a w'
    | (Raise e, w') => (Raise e, w')
    end.

Definition lift {A : Type} (o : outcome A) : M A := fun w => (o, w).

Definition get_stack : M (Stack.t context) := fun w => (Ok (stack w), w).

Definition put_stack (s : Stack.t context) : M unit :=
  fun w => (Ok tt, World s (stdout w)).

Definition print (r : report) : M unit :=
  fun w => (Ok tt, World (stack w) (stdout w ++ [r])).

Declare Scope analyzer_scope.
Delimit Scope analyzer_scope with M.
Notation "x <- m ;; k" := (bind m (fun x => k))
  (at level 61, m at next level, right associativity) : analyzer_scope.
Notation "m ;; k" := (bind m (fun _ => k))
  (at level 61, right associativity) : analyzer_scope.

Local Open Scope analyzer_scope.

Definition stack_push (c : context) : M unit :=
  s <- get_stack ;; put_stack (Stack.push c s).

Definition stack_pop : M context :=
  s <- get_stack ;;
  r <- lift (Stack.pop s) ;;
  put_stack (snd r) ;;
  ret (fst r).

Definition stack_peek : M context :=
  s <- get_stack ;; lift (Stack.peek s).

Definition stack_len : M Z :=
  s <- get_stack ;; ret (Stack.len s).

Definition stack_mutate_peek (c : context) : M unit :=
  s <- get_stack ;;
  s' <- lift (Stack.mutate_peek c s) ;;
  put_stack s'.

(** ** [class Analyzer] *)

Definition Analyzer_init : Stack.t context := Stack.init.

Definition visit_ClassDef (name : string) (generic_visit : M unit) : M unit :=
  stack_push (ClassContext []) ;;
  generic_visit ;;
  infos <- stack_pop ;;
  fs <- lift (ctx_functions infos) ;;
  entropy <- lift (PyList.reduce fmul fs) ;;
  print (Report KClass name (PyList.len fs) entropy).

Definition visit_FunctionDef (name : string) (generic_visit : M unit)
  : M unit :=
  stack_push (FunctionContext 0) ;;
  generic_visit ;;
  infos <- stack_pop ;;
  n <- lift (ctx_calls infos) ;;
  entropy <- lift (func_entropy n MAX_CALLS) ;;
  print (Report KFunction name n entropy) ;;
  k <- stack_len ;;
  if k =? 0 then ret tt
  else
    top <- stack_peek ;;
    if String.eqb (ctx_type top) "class" then
      top <- stack_peek ;;
      top' <- lift (append_function entropy top) ;;
      stack_mutate_peek top'
    else ret tt.

Definition visit_Call (generic_visit : M unit) : M unit :=
  k <- stack_len ;;
  (if k =? 0 then ret tt
   else
     top <- stack_peek ;;
     top' <- lift (incr_calls top) ;;
     stack_mutate_peek top') ;;
  generic_visit.

Definition generic_visit_with (visit : node -> M unit) : list node -> M unit :=
  fix go (cs : list node) : M unit :=
    match cs with
    | [] => ret tt
    | c :: cs' => visit c ;; go cs'
    end.

Fixpoint visit (n : node) : M unit :=
  match n with
  | ClassDef name cs => visit_ClassDef name (generic_visit_with visit cs)
  | FunctionDef name cs => visit_FunctionDef name (generic_visit_with visit cs)
  | Call cs => visit_Call (generic_visit_with visit cs)
  | Other cs => generic_visit_with visit cs
  end.

Definition generic_visit : list node -> M unit := generic_visit_with visit.

(** [main], from the parsed tree on: a fresh [Analyzer] visits the tree;
    whatever it prints is added to the console. *)
Definition main (tree : node) (console : list report)
  : outcome unit * list report :=
  let (r, w) := visit tree (World Analyzer_init console) in (r, stdout w).

Definition analyze (tree : node) : outcome unit * list report :=
  main tree [].

(** ** Reference notions used to state the properties

    None of these is part of the program: they describe a tree, so that
    what the visitor prints can be compared with it. *)

Definition ctx_kind (c : context) : scope_kind :=
  match c with
  | ClassContext _ => KClass
  | FunctionContext _ => KFunction
  end.

Definition scope_kind_of (n : node) : option scope_kind :=
  match n with
  | ClassDef _ _ => Some KClass
  | FunctionDef _ _ => Some KFunction
  | Call _ | Other _ => None
  end.

(** Kind of the context [peek] would return, if any. *)
Definition top_kind (l : list context) : option scope_kind :=
  match rev l with
  | [] => None
  | c :: _ => Some (ctx_kind c)
  end.

Definition Zsum (l : list Z) : Z := fold_right Z.add 0 l.

(** Number of [Call] nodes below [n] that no [ClassDef] or [FunctionDef]
    separates from [n]'s parent: the calls whose nearest enclosing scope
    is the scope [n] sits in. *)
Fixpoint own_calls_node (n : node) : Z :=
  match n with
  | Call cs => 1 + Zsum (map own_calls_node cs)
  | Other cs => Zsum (map own_calls_node cs)
  | ClassDef _ _ | FunctionDef _ _ => 0
  end.

Definition own_calls (cs : list node) : Z := Zsum (map own_calls_node cs).

(** Whether [n / MAX_CALLS] is beyond the largest float, and the value
    of [func_entropy n MAX_CALLS] when it is not. *)
Definition overflows (n : Z) : bool :=
  Qle_bool (pow2 1024) (Qabs (round64 (inject_Z n / inject_Z 10))).

Definition clamp_score (n : Z) : Q :=
  Qmax (Qmin (fsub 1 (round64 (inject_Z n / inject_Z 10))) 1) 0.

(** Scores of the functions whose nearest enclosing scope is the scope
    [n] sits in, in the order they close. *)
Fixpoint own_scores_node (n : node) : list Q :=
  match n with
  | FunctionDef _ cs => [clamp_score (Zsum (map own_calls_node cs))]
  | ClassDef _ _ => []
  | Call cs | Other cs => List.concat (map own_scores_node cs)
  end.

Definition own_scores (cs : list node) : list Q :=
  List.concat (map own_scores_node cs).

Definition product (fs : list Q) : Q :=
  match fs with
  | [] => 1%Q
  | x :: xs => fold_left fmul xs x
  end.

(** The reports of the scopes of a tree, in post-order. *)
Fixpoint results_node (n : node) : list report :=
  match n with
  | ClassDef name cs =>
      List.concat (map results_node cs)
      ++ [Report KClass name
            (PyList.len (List.concat (map own_scores_node cs)))
            (product (List.concat (map own_scores_node cs)))]
  | FunctionDef name cs =>
      List.concat (map results_node cs)
      ++ [Report KFunction name
            (Zsum (map own_calls_node cs))
            (clamp_score (Zsum (map own_calls_node cs)))]
  | Call cs | Other cs => List.concat (map results_node cs)
  end.

Definition results (cs : list node) : list report :=
  List.concat (map results_node cs).

(** The scopes of a tree in post-order, by kind and name only. *)
Fixpoint postorder (n : node) : list (scope_kind * string) :=
  match n with
  | ClassDef name cs => List.concat (map postorder cs) ++ [(KClass, name)]
  | FunctionDef name cs => List.concat (map postorder cs) ++ [(KFunction, name)]
  | Call cs | Other cs => List.concat (map postorder cs)
  end.

Definition label (r : report) : scope_kind * string := (r_kind r, r_name r).

Definition is_class (k : option scope_kind) : bool :=
  match k with
  | Some KClass => true
  | _ => false
  end.

Definition is_nil {A : Type} (l : list A) : bool :=
  match l with
  | [] => true
  | _ => false
  end.

(** Trees on which the visitor runs to completion when entered with a
    context of kind [k] on top of the stack ([None]: empty stack): no
    call sits directly in a class body, every class collects at
    least one score, and no function counts so many calls that the
    tenth of their number is beyond the largest float. *)
Fixpoint safe_node (k : option scope_kind) (n : node) : bool :=
  match n with
  | ClassDef _ cs =>
      forallb (safe_node (Some KClass)) cs
      && negb (is_nil (List.concat (map own_scores_node cs)))
  | FunctionDef _ cs =>
      forallb (safe_node (Some KFunction)) cs
      && negb (overflows (Zsum (map own_calls_node cs)))
  | Call cs => negb (is_class k) && forallb (safe_node k) cs
  | Other cs => forallb (safe_node k) cs
  end.

Definition safe (k : option scope_kind) (cs : list node) : bool :=
  forallb (safe_node k) cs.

(** What a visit adds to the context on top of the stack: [calls] to a
    function's counter, [scores] to a class's list. *)
Definition absorb_ctx (calls : Z) (scores : list Q) (c : context) : context :=
  match c with
  | FunctionContext n => FunctionContext (n + calls)
  | ClassContext fs => ClassContext (fs ++ scores)
  end.

Fixpoint map_last {A : Type} (f : A -> A) (l : list A) : list A :=
  match l with
  | [] => []
  | [x] => [f x]
  | x :: l' => x :: map_last f l'
  end.

Definition absorb (calls : Z) (scores : list Q) (l : list context)
  : list context :=
  map_last (absorb_ctx calls scores) l.

(** *** Points of the traversal

    [enter n] is what [visit n] does before it calls [generic_visit]
    ([visit_enter] below), and a child is visited in the world its left
    siblings leave ([generic_visit_split] below).
    [Visiting root path n w] holds when the traversal of [root] by a
    fresh analyzer reaches the call [visit n] in world [w], [path]
    being the [ClassDef] and [FunctionDef] nodes entered and not yet
    left, outermost first. *)

Definition enter (n : node) : M unit :=
  match n with
  | ClassDef _ _ => stack_push (ClassContext [])
  | FunctionDef _ _ => stack_push (FunctionContext 0)
  | Call _ =>
      k <- stack_len ;;
      if k =? 0 then ret tt
      else
        top <- stack_peek ;;
        top' <- lift (incr_calls top) ;;
        stack_mutate_peek top'
  | Other _ => ret tt
  end.

(** [leave n] is what [visit n] does once [generic_visit] has returned
    ([visit_enter_leave] below). *)
Definition leave (n : node) : M unit :=
  match n with
  | ClassDef name _ =>
      infos <- stack_pop ;;
      fs <- lift (ctx_functions infos) ;;
      entropy <- lift (PyList.reduce fmul fs) ;;
      print (Report KClass name (PyList.len fs) entropy)
  | FunctionDef name _ =>
      infos <- stack_pop ;;
      n <- lift (ctx_calls infos) ;;
      entropy <- lift (func_entropy n MAX_CALLS) ;;
      print (Report KFunction name n entropy) ;;
      k <- stack_len ;;
      if k =? 0 then ret tt
      else
        top <- stack_peek ;;
        if String.eqb (ctx_type top) "class" then
          top <- stack_peek ;;
          top' <- lift (append_function entropy top) ;;
          stack_mutate_peek top'
        else ret tt
  | Call _ | Other _ => ret tt
  end.

Definition opened (n : node) : list node :=
  match scope_kind_of n with
  | Some _ => [n]
  | None => []
  end.

Inductive Visiting (root : node) : list node -> node -> world -> Prop :=
| Visiting_root :
    Visiting root [] root (World Analyzer_init [])
| Visiting_child : forall path n w w1 w2 pre c post,
    Visiting root path n w ->
    enter n w = (Ok tt, w1) ->
    children n = pre ++ c :: post ->
    generic_visit pre w1 = (Ok tt, w2) ->
    Visiting root (path ++ opened n) c w2.

(** A context stands for a node when it is the dictionary that node
    pushes. *)
Definition stands_for (c : context) (n : node) : Prop :=
  scope_kind_of n = Some (ctx_kind c).

(** What [visit] or [generic_visit] returns when started on the
    consistent stack [l] with [out] already printed, for a subtree that
    is safe or not ([ok]), holds [calls] own calls and [scores] own
    scores and whose reports are [rs].  On an exception the reports
    printed so far are a prefix of [rs]; the stack holds the contexts it
    held at the start, the top one possibly fed, followed by those
    ([rest]) of the scopes entered since. *)
Definition visit_post (ok : bool) (calls : Z) (scores : list Q)
    (rs : list report) (l : list context) (out : list report)
    (res : outcome unit * world) : Prop :=
  match res with
  | (Ok _, w') =>
      ok = true
      /\ w' = World (Stack.of_list (absorb calls scores l)) (out ++ rs)
  | (Raise e, w') =>
      ok = false
      /\ (e = KeyError \/ e = TypeError \/ e = OverflowError)
      /\ exists calls' scores' rest pre suf,
          w' = World (Stack.of_list (absorb calls' scores' l ++ rest))
                 (out ++ pre)
          /\ rs = pre ++ suf
  end.

(** A computation that treats the console as write-only: started with
    [out] already printed, it behaves as on an empty console and puts
    what it prints after [out]. *)
Definition appends_output {A : Type} (m : M A) : Prop :=
  forall s out,
    m (World s out)
    = let (r, w) := m (World s []) in (r, World (stack w) (out ++ stdout w)).

(** ** Further reference notions *)

(** [n] successive calls of [pop], the popped elements in the order
    they come out. *)
Fixpoint pop_many {A : Type} (n : nat) (s : Stack.t A)
  : outcome (list A * Stack.t A) :=
  match n with
  | O => Ok ([], s)
  | S n' =>
      outcome_bind (Stack.pop s) (fun r =>
      outcome_bind (pop_many n' (snd r)) (fun r' =>
      Ok (fst r :: fst r', snd r')))
  end.

Definition push_all {A : Type} (es : list A) (s : Stack.t A) : Stack.t A :=
  fold_left (fun s e => Stack.push e s) es s.

(** All the [Call] nodes of a tree, wherever they sit. *)
Fixpoint total_calls (n : node) : Z :=
  match n with
  | Call cs => 1 + Zsum (map total_calls cs)
  | ClassDef _ cs | FunctionDef _ cs | Other cs => Zsum (map total_calls cs)
  end.

Definition is_function_report (r : report) : bool :=
  match r_kind r with
  | KFunction => true
  | KClass => false
  end.

(** Sum of the call counts printed for functions. *)
Definition reported_calls (out : list report) : Z :=
  Zsum (map r_count (filter is_function_report out)).

(** The same arithmetic in the Standard Library's specification of
    IEEE 754 binary64, to compare [round64] with: an integer as the
    float of that value, and the value of a finite float. *)
Definition SF_of_Z (n : Z) : spec_float :=
  match n with
  | Z0 => S754_zero false
  | Z.pos p => S754_finite false p 0
  | Z.neg p => S754_finite true p 0
  end.

Definition SF2Q (f : spec_float) : option Q :=
  match f with
  | S754_zero _ => Some 0%Q
  | S754_finite s m e =>
      Some (inject_Z (if s then Z.neg m else Z.pos m) * pow2 e)%Q
  | S754_infinity _ | S754_nan => None
  end.

Definition same_number (q : Q) (f : spec_float) : bool :=
  match SF2Q f with
  | Some q' => Qeq_bool q q'
  | None => false
  end.

Definition SF_tenth (n : Z) : spec_float :=
  SFdiv 53 1024 (SF_of_Z n) (SF_of_Z 10).

Definition SF_score (n : Z) : spec_float :=
  SFsub 53 1024 (SF_of_Z 1) (SF_tenth n).

(** The rationals that are binary64 numbers, and those among them that
    lie between 0 and 1: the scores. *)
Definition is_float (x : Q) : Prop :=
  exists m e : Z,
    -1074 <= e /\ Z.abs m < 2 ^ 53 /\ (x == inject_Z m * pow2 e)%Q.

Definition in_unit (q : Q) : Prop := is_float q /\ (0 <= q <= 1)%Q.

Definition report_in_range (r : report) : Prop :=
  0 <= r_count r /\ in_unit (r_entropy r).

(** The result of a run on the stack [l], seen from a stack that holds
    [base] below [l]. *)
Definition under (base : list context) (res : outcome unit * world)
  : outcome unit * world :=
  (fst res,
   World (Stack.of_list (base ++ Stack.inner (stack (snd res))))
     (stdout (snd res))).

(** * Properties *)

(** ** Rounding to binary64 *)

Lemma pow2_pos e : (0 < pow2 e)%Q.
Proof. apply Qpower_0_lt. reflexivity. Qed.

Lemma pow2_add a b : (pow2 (a + b) == pow2 a * pow2 b)%Q.
Proof. apply Qpower_plus. discriminate. Qed.

Lemma pow2_sub a b : (pow2 (a - b) == pow2 a / pow2 b)%Q.
Proof. apply Qpower_minus. discriminate. Qed.

Lemma pow2_le a b : a <= b -> (pow2 a <= pow2 b)%Q.
Proof. intros H. apply Qpower_le_compat_l; [exact H | discriminate]. Qed.

Lemma pow2_lt a b : a < b -> (pow2 a < pow2 b)%Q.
Proof. intros H. apply Qpower_lt_compat_l; [exact H | reflexivity]. Qed.

Lemma pow2_lt_inv a b : (pow2 a < pow2 b)%Q -> a < b.
Proof. intros H. apply (Qpower_lt_compat_l_inv 2); [exact H | reflexivity]. Qed.

Lemma pow2_Z e : 0 <= e -> (pow2 e == inject_Z (2 ^ e))%Q.
Proof. intros H. unfold pow2. now rewrite Zpower_Qpower. Qed.

Lemma pow2_0 : (pow2 0 == 1)%Q.
Proof. reflexivity. Qed.

Lemma pow2_succ e : (pow2 (e + 1) == 2 * pow2 e)%Q.
Proof. rewrite pow2_add. change (pow2 1) with 2%Q. ring. Qed.

Lemma flog2_spec a :
  (0 < a)%Q -> (pow2 (flog2 a) <= a)%Q /\ (a < pow2 (flog2 a + 1))%Q.
Proof.
  intros Ha. destruct a as [p d]. unfold flog2. cbn [Qnum Qden].
  assert (Hp : 0 < p) by (unfold Qlt in Ha; simpl in Ha; lia).
  set (lp := Z.log2 p). set (ld := Z.log2 (Z.pos d)).
  destruct (Z.log2_spec p Hp) as [Hp1 Hp2]. fold lp in Hp1, Hp2.
  destruct (Z.log2_spec (Z.pos d) (Pos2Z.is_pos d)) as [Hd1 Hd2].
  fold ld in Hd1, Hd2.
  assert (Hlp : 0 <= lp) by apply Z.log2_nonneg.
  assert (Hld : 0 <= ld) by apply Z.log2_nonneg.
  assert (E : (p # d == inject_Z p / inject_Z (Z.pos d))%Q) by apply Qmake_Qdiv.
  assert (HD : (0 < inject_Z (Z.pos d))%Q) by reflexivity.
  assert (A1 : (pow2 lp <= inject_Z p)%Q)
    by (rewrite pow2_Z by lia; now rewrite <- Zle_Qle).
  assert (A2 : (inject_Z p < 2 * pow2 lp)%Q).
  { rewrite <- pow2_succ, pow2_Z by lia. rewrite <- Zlt_Qlt.
    now rewrite <- Z.add_1_r in Hp2. }
  assert (B1 : (pow2 ld <= inject_Z (Z.pos d))%Q)
    by (rewrite pow2_Z by lia; now rewrite <- Zle_Qle).
  assert (B2 : (inject_Z (Z.pos d) < 2 * pow2 ld)%Q).
  { rewrite <- pow2_succ, pow2_Z by lia. rewrite <- Zlt_Qlt.
    now rewrite <- Z.add_1_r in Hd2. }
  pose proof (pow2_pos lp) as PA. pose proof (pow2_pos ld) as PB.
  assert (U : (p # d < pow2 (lp - ld + 1))%Q).
  { rewrite E, pow2_succ, pow2_sub.
    apply Qlt_shift_div_r; [exact HD |].
    setoid_replace (2 * (pow2 lp / pow2 ld) * inject_Z (Z.pos d))%Q
      with (2 * pow2 lp * (inject_Z (Z.pos d) / pow2 ld))%Q
      by (field; intros F; rewrite F in PB; discriminate).
    assert (1 <= inject_Z (Z.pos d) / pow2 ld)%Q
      by (apply Qle_shift_div_l; [exact PB | now rewrite Qmult_1_l]).
    nra. }
  assert (L : (pow2 (lp - ld - 1) <= p # d)%Q).
  { rewrite E. apply Qle_shift_div_l; [exact HD |].
    assert (F : (pow2 (lp - ld - 1) * (2 * pow2 ld) == pow2 lp)%Q).
    { rewrite <- pow2_succ, <- pow2_add. apply Qpower_comp; [reflexivity | lia]. }
    pose proof (pow2_pos (lp - ld - 1)) as PC. nra. }
  destruct (Qle_bool (pow2 (lp - ld)) (p # d)) eqn:C.
  - apply Qle_bool_iff in C. split; [exact C | exact U].
  - split; [exact L |].
    replace (lp - ld - 1 + 1) with (lp - ld) by lia.
    apply Qnot_le_lt. intros F. apply Qle_bool_iff in F. congruence.
Qed.

Lemma rne_bounds r : Qfloor r <= rne r <= Qfloor r + 1.
Proof.
  unfold rne. destruct (r - inject_Z (Qfloor r) ?= 1 # 2)%Q;
    try destruct (Z.even (Qfloor r)); lia.
Qed.

Lemma rne_le_int r N : (r <= inject_Z N)%Q -> rne r <= N.
Proof.
  intros H. pose proof (Qfloor_le r) as Hf.
  assert (HfN : Qfloor r <= N).
  { rewrite Zle_Qle. now apply Qle_trans with r. }
  destruct (Z.eq_dec (Qfloor r) N) as [E | NE].
  - unfold rne.
    assert (C : (r - inject_Z (Qfloor r) ?= 1 # 2)%Q = Lt).
    { apply (proj1 (Qlt_alt _ _)). rewrite E. lra. }
    rewrite C. lia.
  - pose proof (rne_bounds r). lia.
Qed.

Lemma rne_ge_int r N : (inject_Z N <= r)%Q -> N <= rne r.
Proof.
  intros H. pose proof (Qfloor_resp_le _ _ H) as Hf.
  rewrite Qfloor_Z in Hf. pose proof (rne_bounds r). lia.
Qed.

Lemma round64_zero a : (a == 0)%Q -> round64 a = 0%Q.
Proof.
  intros H. unfold round64.
  now rewrite (proj2 (Qeq_bool_iff a 0) H).
Qed.

Lemma round64_nonzero a :
  ~ (a == 0)%Q ->
  (round64 a == inject_Z (rne (a / pow2 (cexp a))) * pow2 (cexp a))%Q.
Proof.
  intros H. unfold round64.
  destruct (Qeq_bool a 0) eqn:E.
  - apply Qeq_bool_iff in E. contradiction.
  - apply Qred_correct.
Qed.

Lemma cexp_ge a : -1074 <= cexp a.
Proof. unfold cexp. lia. Qed.

Lemma Qabs_pos_eq a : (0 < a)%Q -> Qabs a = a.
Proof.
  destruct a as [p d]. unfold Qlt, Qabs. cbn [Qnum Qden]. intros H.
  f_equal. apply Z.abs_eq. lia.
Qed.

(** For a positive [a] below the float [x], the exponent used to round
    [a] does not exceed the exponent of [x]. *)
Lemma cexp_le_float a m e :
  (0 < a)%Q -> -1074 <= e -> Z.abs m < 2 ^ 53 ->
  (a <= inject_Z m * pow2 e)%Q -> cexp a <= e.
Proof.
  intros Ha He Hm Hax. unfold cexp.
  rewrite (Qabs_pos_eq a Ha).
  destruct (flog2_spec a Ha) as [L _].
  assert (Hlt : (pow2 (flog2 a) < pow2 (53 + e))%Q).
  { apply Qle_lt_trans with (1 := L). apply Qle_lt_trans with (1 := Hax).
    rewrite pow2_add. apply Qmult_lt_compat_r; [apply pow2_pos |].
    rewrite pow2_Z by lia. rewrite <- Zlt_Qlt. lia. }
  apply pow2_lt_inv in Hlt. lia.
Qed.

Lemma round64_nonneg a : (0 <= a)%Q -> (0 <= round64 a)%Q.
Proof.
  intros Ha. destruct (Qeq_dec a 0) as [E | NE].
  - rewrite (round64_zero a E). apply Qle_refl.
  - rewrite (round64_nonzero a NE).
    apply Qmult_le_0_compat; [| apply Qlt_le_weak, pow2_pos].
    change 0%Q with (inject_Z 0). rewrite <- Zle_Qle. apply rne_ge_int.
    apply Qle_shift_div_l; [apply pow2_pos |].
    now rewrite Qmult_0_l.
Qed.

(** Rounding never carries a number beyond a float that bounds it. *)
Lemma round64_le_float a x :
  is_float x -> (0 <= a)%Q -> (a <= x)%Q -> (round64 a <= x)%Q.
Proof.
  intros (m & e & He & Hm & Hx) Ha Hax.
  destruct (Qeq_dec a 0) as [E | NE].
  - rewrite (round64_zero a E). now apply Qle_trans with a.
  - assert (Hpos : (0 < a)%Q).
    { apply Qle_lt_or_eq in Ha. destruct Ha as [Ha | Ha]; [exact Ha |].
      exfalso. apply NE. now symmetry. }
    rewrite Hx in Hax.
    pose proof (cexp_le_float a m e Hpos He Hm Hax) as Hc.
    rewrite (round64_nonzero a NE), Hx.
    set (c := cexp a) in *.
    assert (S : (pow2 e == inject_Z (2 ^ (e - c)) * pow2 c)%Q).
    { rewrite <- pow2_Z by lia. rewrite <- pow2_add.
      apply Qpower_comp; [reflexivity | lia]. }
    rewrite S.
    setoid_replace (inject_Z m * (inject_Z (2 ^ (e - c)) * pow2 c))%Q
      with (inject_Z (m * 2 ^ (e - c)) * pow2 c)%Q
      by (rewrite inject_Z_mult; ring).
    apply Qmult_le_compat_r; [| apply Qlt_le_weak, pow2_pos].
    rewrite <- Zle_Qle. apply rne_le_int.
    apply Qle_shift_div_r; [apply pow2_pos |].
    rewrite inject_Z_mult, <- Qmult_assoc, <- S. exact Hax.
Qed.

Lemma is_float_0 : is_float 0.
Proof. exists 0, 0. repeat split; try lia. Qed.

Lemma is_float_1 : is_float 1.
Proof. exists 1, 0. repeat split; try lia. Qed.

Lemma is_float_eq x y : (x == y)%Q -> is_float x -> is_float y.
Proof.
  intros E (m & e & He & Hm & Hx). exists m, e. repeat split; auto.
  now rewrite <- E.
Qed.

Lemma Qabs_div_pow2 a e : (Qabs (a / pow2 e) == Qabs a / pow2 e)%Q.
Proof.
  unfold Qdiv. rewrite Qabs_Qmult.
  rewrite (Qabs_pos (/ pow2 e)); [reflexivity |].
  apply Qinv_le_0_compat, Qlt_le_weak, pow2_pos.
Qed.

(** Every rounded number is a float. *)
Lemma round64_is_float a : is_float (round64 a).
Proof.
  destruct (Qeq_dec a 0) as [E | NE].
  - rewrite (round64_zero a E). apply is_float_0.
  - apply (is_float_eq _ _ (Qeq_sym _ _ (round64_nonzero a NE))).
    set (c := cexp a).
    assert (Hc : -1074 <= c) by apply cexp_ge.
    assert (Habs : (0 < Qabs a)%Q).
    { destruct (Qlt_le_dec 0 a) as [Hp | Hn].
      - rewrite Qabs_pos by (now apply Qlt_le_weak). exact Hp.
      - rewrite Qabs_neg by exact Hn.
        apply Qle_lt_or_eq in Hn. destruct Hn as [Hn | Hn]; [lra | contradiction]. }
    destruct (flog2_spec (Qabs a) Habs) as [_ U].
    assert (Hb : (Qabs (a / pow2 c) <= inject_Z (2 ^ 53))%Q).
    { rewrite Qabs_div_pow2. apply Qle_shift_div_r; [apply pow2_pos |].
      rewrite <- pow2_Z by lia. rewrite <- pow2_add.
      apply Qlt_le_weak, Qlt_le_trans with (1 := U).
      apply pow2_le. unfold c, cexp. lia. }
    apply Qabs_Qle_condition in Hb. destruct Hb as [Hb1 Hb2].
    rewrite <- inject_Z_opp in Hb1.
    apply rne_ge_int in Hb1. apply rne_le_int in Hb2.
    set (m := rne (a / pow2 c)) in *.
    destruct (Z.eq_dec (Z.abs m) (2 ^ 53)) as [Em | Nm].
    + assert (Hm2 : m = 2 ^ 53 \/ m = - 2 ^ 53) by lia.
      exists (m / 2), (c + 1). split; [lia |]. split.
      * destruct Hm2 as [-> | ->]; reflexivity.
      * rewrite pow2_succ.
        assert (Hm : m = 2 * (m / 2))
          by (destruct Hm2 as [-> | ->]; reflexivity).
        rewrite Hm at 1. rewrite inject_Z_mult. ring.
    + exists m, c. split; [exact Hc |]. split; [lia | reflexivity].
Qed.

(** The unit interval is closed under rounding. *)
Lemma round64_le_1 a : (0 <= a)%Q -> (a <= 1)%Q -> (round64 a <= 1)%Q.
Proof. intros. apply round64_le_float; auto using is_float_1. Qed.

Lemma round64_nonpos a : (a <= 0)%Q -> (round64 a <= 0)%Q.
Proof.
  intros Ha. destruct (Qeq_dec a 0) as [E | NE].
  - rewrite (round64_zero a E). apply Qle_refl.
  - rewrite (round64_nonzero a NE).
    assert (H : rne (a / pow2 (cexp a)) <= 0).
    { apply rne_le_int. apply Qle_shift_div_r; [apply pow2_pos |].
      now rewrite Qmult_0_l. }
    rewrite Zle_Qle in H. change (inject_Z 0) with 0%Q in H.
    pose proof (pow2_pos (cexp a)). nra.
Qed.

(** Nor does rounding carry a number below a float it exceeds. *)
Lemma round64_ge_float a x :
  is_float x -> (0 <= x)%Q -> (x <= a)%Q -> (x <= round64 a)%Q.
Proof.
  intros (m & e & He & Hm & Hx) H0 Hxa.
  destruct (Qeq_dec x 0) as [E | NE].
  - rewrite E. apply round64_nonneg. now rewrite <- E.
  - assert (Hxpos : (0 < x)%Q).
    { apply Qle_lt_or_eq in H0. destruct H0 as [H0 | H0]; [exact H0 |].
      exfalso. apply NE. now symmetry. }
    assert (Hapos : (0 < a)%Q) by (now apply Qlt_le_trans with x).
    assert (NA : ~ (a == 0)%Q) by (intros F; rewrite F in Hapos; discriminate).
    rewrite (round64_nonzero a NA), Hx. rewrite Hx in Hxa.
    set (c := cexp a) in *.
    pose proof (pow2_pos c) as Pc. pose proof (pow2_pos e) as Pe.
    destruct (Z_le_gt_dec c e) as [Hce | Hce].
    + assert (S : (pow2 e == inject_Z (2 ^ (e - c)) * pow2 c)%Q).
      { rewrite <- pow2_Z by lia. rewrite <- pow2_add.
        apply Qpower_comp; [reflexivity | lia]. }
      rewrite S.
      setoid_replace (inject_Z m * (inject_Z (2 ^ (e - c)) * pow2 c))%Q
        with (inject_Z (m * 2 ^ (e - c)) * pow2 c)%Q
        by (rewrite inject_Z_mult; ring).
      apply Qmult_le_compat_r; [| now apply Qlt_le_weak].
      rewrite <- Zle_Qle. apply rne_ge_int.
      apply Qle_shift_div_l; [exact Pc |].
      rewrite inject_Z_mult, <- Qmult_assoc, <- S. exact Hxa.
    + assert (Hc : c = flog2 (Qabs a) - 52) by (unfold c, cexp in *; lia).
      rewrite (Qabs_pos_eq a Hapos) in Hc.
      destruct (flog2_spec a Hapos) as [L _].
      assert (R : 2 ^ 52 <= rne (a / pow2 c)).
      { apply rne_ge_int. apply Qle_shift_div_l; [exact Pc |].
        rewrite <- pow2_Z by lia. rewrite <- pow2_add.
        replace (52 + c) with (flog2 a) by lia. exact L. }
      rewrite Zle_Qle in R.
      assert (M : (inject_Z m <= inject_Z (2 ^ 53))%Q)
        by (rewrite <- Zle_Qle; lia).
      assert (E1 : (pow2 c == pow2 (c - e - 1) * (2 * pow2 e))%Q).
      { rewrite <- pow2_succ, <- pow2_add.
        apply Qpower_comp; [reflexivity | lia]. }
      assert (G : (1 <= pow2 (c - e - 1))%Q).
      { rewrite <- pow2_0. apply pow2_le. lia. }
      assert (Mpos : (0 <= inject_Z m)%Q).
      { assert (0 < inject_Z m * pow2 e)%Q by (now rewrite <- Hx). nra. }
      change (inject_Z (2 ^ 53)) with (2 * inject_Z (2 ^ 52))%Q in M.
      apply Qle_trans with (inject_Z (2 ^ 52) * pow2 c)%Q.
      * rewrite E1.
        apply Qle_trans with (inject_Z (2 ^ 52) * (2 * pow2 e))%Q; [nra |].
        assert (0 <= inject_Z (2 ^ 52) * (2 * pow2 e))%Q by nra.
        nra.
      * apply Qmult_le_compat_r; [exact R | now apply Qlt_le_weak].
Qed.

(** A score is a float between 0 and 1, whatever the quotient. *)
Lemma score_in_unit t : in_unit (Qmax (Qmin (fsub 1 t) 1) 0).
Proof.
  split.
  - destruct (Q.max_spec (Qmin (fsub 1 t) 1) 0) as [[_ E] | [_ E]];
      apply (is_float_eq _ _ (Qeq_sym _ _ E)); [apply is_float_0 |].
    destruct (Q.min_spec (fsub 1 t) 1) as [[_ E'] | [_ E']];
      apply (is_float_eq _ _ (Qeq_sym _ _ E'));
      [apply round64_is_float | apply is_float_1].
  - split.
    + apply Q.le_max_r.
    + apply Q.max_lub; [apply Q.le_min_r | discriminate].
Qed.


(** ** The stack *)

Section StackFacts.

Context {A : Type}.

Lemma len_app_one (l : list A) (e : A) :
  PyList.len (l ++ [e]) = PyList.len l + 1.
Proof.
  unfold PyList.len. rewrite length_app. simpl. lia.
Qed.

Lemma normalize_last (l : list A) (e : A) :
  PyList.normalize_index (PyList.len (l ++ [e])) (PyList.len l)
  = Some (List.length l).
Proof.
  unfold PyList.normalize_index. rewrite len_app_one.
  unfold PyList.len.
  destruct (Z.ltb_spec (Z.of_nat (List.length l)) 0) as [H | H]; [lia |].
  destruct (Z.leb_spec 0 (Z.of_nat (List.length l))) as [H1 | H1]; [| lia].
  destruct (Z.ltb_spec (Z.of_nat (List.length l))
              (Z.of_nat (List.length l) + 1)) as [H2 | H2]; [| lia].
  simpl. now rewrite Nat2Z.id.
Qed.

Lemma firstn_snoc (l : list A) (e : A) :
  firstn (List.length l) (l ++ [e]) = l.
Proof.
  rewrite firstn_app, firstn_all, Nat.sub_diag. simpl. apply app_nil_r.
Qed.

Lemma skipn_snoc (l : list A) (e : A) :
  skipn (S (List.length l)) (l ++ [e]) = [].
Proof.
  apply skipn_all2. rewrite length_app. simpl. lia.
Qed.

Lemma normalize_empty (i : Z) :
  i = -1 -> PyList.normalize_index 0 i = None.
Proof. intros ->. reflexivity. Qed.

Lemma of_list_snoc (l : list A) (e : A) :
  Stack.of_list (l ++ [e]) = Stack.Make (l ++ [e]) (PyList.len l).
Proof.
  unfold Stack.of_list. rewrite len_app_one. f_equal. lia.
Qed.

Lemma push_of_list (l : list A) (e : A) :
  Stack.push e (Stack.of_list l) = Stack.of_list (l ++ [e]).
Proof.
  rewrite of_list_snoc. unfold Stack.push, Stack.of_list, PyList.append.
  simpl. f_equal. lia.
Qed.

Lemma peek_of_list_snoc (l : list A) (e : A) :
  Stack.peek (Stack.of_list (l ++ [e])) = Ok e.
Proof.
  rewrite of_list_snoc. unfold Stack.peek, PyList.getitem.
  cbn [Stack.inner Stack.depth].
  rewrite normalize_last, nth_error_app2 by lia.
  now rewrite Nat.sub_diag.
Qed.

Lemma pop_of_list_snoc (l : list A) (e : A) :
  Stack.pop (Stack.of_list (l ++ [e])) = Ok (e, Stack.of_list l).
Proof.
  rewrite of_list_snoc.
  unfold Stack.pop, PyList.getitem, PyList.delitem.
  cbn [Stack.inner Stack.depth].
  rewrite normalize_last, nth_error_app2 by lia.
  rewrite Nat.sub_diag. cbn [nth_error outcome_bind].
  rewrite firstn_snoc, skipn_snoc, app_nil_r.
  unfold Stack.of_list. do 2 f_equal.
Qed.

Lemma pop_of_list_nil :
  Stack.pop (Stack.of_list (@nil A)) = Raise IndexError.
Proof. reflexivity. Qed.

Lemma mutate_peek_of_list_snoc (l : list A) (e x : A) :
  Stack.mutate_peek x (Stack.of_list (l ++ [e]))
  = Ok (Stack.of_list (l ++ [x])).
Proof.
  rewrite !of_list_snoc.
  unfold Stack.mutate_peek, PyList.setitem.
  cbn [Stack.inner Stack.depth].
  rewrite normalize_last. cbn [outcome_bind].
  now rewrite firstn_snoc, skipn_snoc.
Qed.

Lemma len_of_list (l : list A) :
  Stack.len (Stack.of_list l) = PyList.len l.
Proof. reflexivity. Qed.

Lemma snoc_cases (l : list A) :
  l = [] \/ exists l' e, l = l' ++ [e].
Proof.
  destruct l as [| x l] using rev_ind; [now left | right; eauto].
Qed.

(** Every stack built from [init] by pushes and pops is the consistent
    stack of some list of cells. *)
Lemma run_of_list (ops : list (Stack.op A)) :
  forall l, exists l', Stack.run ops (Stack.of_list l) = Stack.of_list l'.
Proof.
  induction ops as [| o ops IH]; intros l; simpl.
  - now exists l.
  - destruct o as [e |]; simpl.
    + rewrite push_of_list. apply IH.
    + destruct (snoc_cases l) as [-> | (l0 & e & ->)].
      * rewrite pop_of_list_nil. apply IH.
      * rewrite pop_of_list_snoc. apply IH.
Qed.

End StackFacts.

(** C10 -- LIFO law of [Stack]: in every state reached from the empty
    stack by a sequence of [push] and [pop] operations, the depth index
    equals the number of stored elements minus one, and popping after
    pushing [e] returns [e] and gives back the state before the push. *)
Theorem stack_lifo_roundtrip :
  forall (A : Type) (ops : list (Stack.op A)) (e : A),
    let s := Stack.run ops Stack.init in
    Stack.depth s = Stack.len s - 1
    /\ Stack.pop (Stack.push e s) = Ok (e, s)
    /\ Stack.peek (Stack.push e s) = Ok e.
Proof.
  intros A ops e s.
  destruct (run_of_list ops (@nil A)) as [l Hl].
  change (Stack.of_list (@nil A)) with (@Stack.init A) in Hl.
  subst s. rewrite Hl. repeat split.
  - rewrite push_of_list. apply pop_of_list_snoc.
  - rewrite push_of_list. apply peek_of_list_snoc.
Qed.

(** ** Induction on trees *)

Section NodeInd.

Variable P : node -> Prop.
Hypothesis HClass : forall name cs, Forall P cs -> P (ClassDef name cs).
Hypothesis HFunction : forall name cs, Forall P cs -> P (FunctionDef name cs).
Hypothesis HCall : forall cs, Forall P cs -> P (Call cs).
Hypothesis HOther : forall cs, Forall P cs -> P (Other cs).

Lemma node_forall_ind : forall n, P n.
Proof.
  fix IH 1. intros [name cs | name cs | cs | cs];
    [apply HClass | apply HFunction | apply HCall | apply HOther];
    induction cs as [| c cs IHcs]; constructor; auto.
Qed.

End NodeInd.

(** ** The stack operations on a consistent stack *)

Lemma stack_push_of_list c l out :
  stack_push c (World (Stack.of_list l) out)
  = (Ok tt, World (Stack.of_list (l ++ [c])) out).
Proof.
  unfold stack_push, bind, get_stack, put_stack. simpl.
  now rewrite push_of_list.
Qed.

Lemma stack_pop_of_list c l out :
  stack_pop (World (Stack.of_list (l ++ [c])) out)
  = (Ok c, World (Stack.of_list l) out).
Proof.
  unfold stack_pop, bind, get_stack, put_stack, lift, ret. simpl.
  now rewrite pop_of_list_snoc.
Qed.

Lemma stack_peek_of_list c l out :
  stack_peek (World (Stack.of_list (l ++ [c])) out)
  = (Ok c, World (Stack.of_list (l ++ [c])) out).
Proof.
  unfold stack_peek, bind, get_stack, lift. simpl.
  now rewrite peek_of_list_snoc.
Qed.

Lemma stack_len_of_list l out :
  stack_len (World (Stack.of_list l) out)
  = (Ok (PyList.len l), World (Stack.of_list l) out).
Proof. reflexivity. Qed.

Lemma stack_mutate_peek_of_list x c l out :
  stack_mutate_peek x (World (Stack.of_list (l ++ [c])) out)
  = (Ok tt, World (Stack.of_list (l ++ [x])) out).
Proof.
  unfold stack_mutate_peek, bind, get_stack, put_stack, lift. simpl.
  now rewrite mutate_peek_of_list_snoc.
Qed.

Lemma len_snoc_nonzero {A : Type} (l : list A) (c : A) :
  (PyList.len (l ++ [c]) =? 0) = false.
Proof.
  rewrite len_app_one. unfold PyList.len. apply Z.eqb_neq. lia.
Qed.

Lemma func_entropy_MAX_CALLS n :
  func_entropy n MAX_CALLS
  = if overflows n then Raise OverflowError else Ok (clamp_score n).
Proof.
  unfold func_entropy, truediv, overflows, clamp_score, MAX_CALLS.
  change (10 =? 0) with false. cbv iota.
  now destruct (Qle_bool (pow2 1024) _).
Qed.

(** ** Facts about the reference notions *)

Lemma map_last_snoc {A : Type} (f : A -> A) (l : list A) (x : A) :
  map_last f (l ++ [x]) = l ++ [f x].
Proof.
  induction l as [| y l IH]; [reflexivity |].
  simpl. rewrite IH. destruct l; reflexivity.
Qed.

Lemma top_kind_nil : top_kind [] = None.
Proof. reflexivity. Qed.

Lemma top_kind_snoc l c : top_kind (l ++ [c]) = Some (ctx_kind c).
Proof. unfold top_kind. now rewrite rev_unit. Qed.

Lemma ctx_kind_absorb calls scores c :
  ctx_kind (absorb_ctx calls scores c) = ctx_kind c.
Proof. now destruct c. Qed.

Lemma absorb_nil calls scores : absorb calls scores [] = [].
Proof. reflexivity. Qed.

Lemma absorb_snoc calls scores l c :
  absorb calls scores (l ++ [c]) = l ++ [absorb_ctx calls scores c].
Proof. apply map_last_snoc. Qed.

Lemma absorb_ctx_neutral c : absorb_ctx 0 [] c = c.
Proof.
  destruct c; simpl; [now rewrite app_nil_r | now rewrite Z.add_0_r].
Qed.

Lemma absorb_neutral l : absorb 0 [] l = l.
Proof.
  destruct (snoc_cases l) as [-> | (l0 & c & ->)]; [reflexivity |].
  now rewrite absorb_snoc, absorb_ctx_neutral.
Qed.

Lemma absorb_absorb a1 s1 a2 s2 l :
  absorb a2 s2 (absorb a1 s1 l) = absorb (a1 + a2) (s1 ++ s2) l.
Proof.
  destruct (snoc_cases l) as [-> | (l0 & c & ->)]; [reflexivity |].
  rewrite !absorb_snoc. destruct c; simpl.
  - now rewrite app_assoc.
  - now rewrite Z.add_assoc.
Qed.

Lemma top_kind_absorb calls scores l :
  top_kind (absorb calls scores l) = top_kind l.
Proof.
  destruct (snoc_cases l) as [-> | (l0 & c & ->)]; [reflexivity |].
  now rewrite absorb_snoc, !top_kind_snoc, ctx_kind_absorb.
Qed.

Lemma kinds_absorb calls scores l :
  map ctx_kind (absorb calls scores l) = map ctx_kind l.
Proof.
  destruct (snoc_cases l) as [-> | (l0 & c & ->)]; [reflexivity |].
  now rewrite absorb_snoc, !map_app; simpl; rewrite ctx_kind_absorb.
Qed.

(** ** The visitor against the reference notions *)

Lemma generic_visit_cons c cs w :
  generic_visit (c :: cs) w
  = match visit c w with
    | (Ok _, w') => generic_visit cs w'
    | (Raise e, w') => (Raise e, w')
    end.
Proof. reflexivity. Qed.

Lemma generic_visit_post cs :
  Forall (fun n => forall l out,
            visit_post (safe_node (top_kind l) n) (own_calls_node n)
              (own_scores_node n) (results_node n) l out
              (visit n (World (Stack.of_list l) out))) cs ->
  forall l out,
    visit_post (safe (top_kind l) cs) (own_calls cs) (own_scores cs)
      (results cs) l out (generic_visit cs (World (Stack.of_list l) out)).
Proof.
  induction 1 as [| c cs Hc _ IH]; intros l out.
  - simpl. split; [reflexivity |].
    now rewrite absorb_neutral, app_nil_r.
  - rewrite generic_visit_cons. specialize (Hc l out).
    unfold safe, own_calls, own_scores, results in *.
    cbn [map forallb Zsum fold_right List.concat].
    destruct (visit c (World (Stack.of_list l) out)) as [[[] | e] w1];
      cbn [visit_post] in Hc.
    + destruct Hc as [Hsafe ->].
      specialize (IH (absorb (own_calls_node c) (own_scores_node c) l)
                    (out ++ results_node c)).
      rewrite top_kind_absorb in IH.
      destruct (generic_visit cs _) as [[[] | e] w2]; cbn [visit_post] in *.
      * destruct IH as [Hsafe' ->]. split.
        -- now rewrite Hsafe, Hsafe'.
        -- now rewrite absorb_absorb, <- app_assoc.
      * destruct IH as (Hsafe' & He & c2 & s2 & rest & pre & suf & -> & Hrs).
        split; [now rewrite Hsafe, Hsafe' |]. split; [exact He |].
        exists (own_calls_node c + c2), (own_scores_node c ++ s2), rest,
          (results_node c ++ pre), suf. split.
        -- now rewrite absorb_absorb, app_assoc.
        -- now rewrite Hrs, app_assoc.
    + destruct Hc as (Hsafe & He & c1 & s1 & rest & pre & suf & -> & Hrs).
      split; [now rewrite Hsafe |]. split; [exact He |].
      exists c1, s1, rest, pre, (suf ++ List.concat (map results_node cs)).
      split; [reflexivity |].
      now rewrite Hrs, app_assoc.
Qed.

(** ** The three methods, whatever [generic_visit] does *)

Section Methods.

Variable gv : M unit.
Variables (l : list context) (out : list report).

Lemma visit_Call_empty_stack :
  visit_Call gv (World (Stack.of_list []) out)
  = gv (World (Stack.of_list []) out).
Proof.
  unfold visit_Call, bind. rewrite stack_len_of_list. reflexivity.
Qed.

Lemma visit_Call_in_function n :
  visit_Call gv (World (Stack.of_list (l ++ [FunctionContext n])) out)
  = gv (World (Stack.of_list (l ++ [FunctionContext (n + 1)])) out).
Proof.
  unfold visit_Call, bind.
  rewrite stack_len_of_list, len_snoc_nonzero, stack_peek_of_list.
  cbn [lift incr_calls ctx_calls outcome_bind].
  now rewrite stack_mutate_peek_of_list.
Qed.

Lemma visit_Call_in_class fs :
  visit_Call gv (World (Stack.of_list (l ++ [ClassContext fs])) out)
  = (Raise KeyError, World (Stack.of_list (l ++ [ClassContext fs])) out).
Proof.
  unfold visit_Call, bind.
  rewrite stack_len_of_list, len_snoc_nonzero, stack_peek_of_list.
  reflexivity.
Qed.

Lemma visit_FunctionDef_raise name e w' :
  gv (World (Stack.of_list (l ++ [FunctionContext 0])) out) = (Raise e, w') ->
  visit_FunctionDef name gv (World (Stack.of_list l) out) = (Raise e, w').
Proof.
  intros H. unfold visit_FunctionDef, bind.
  now rewrite stack_push_of_list, H.
Qed.

Lemma visit_FunctionDef_ok name n out' :
  gv (World (Stack.of_list (l ++ [FunctionContext 0])) out)
  = (Ok tt, World (Stack.of_list (l ++ [FunctionContext n])) out') ->
  overflows n = false ->
  visit_FunctionDef name gv (World (Stack.of_list l) out)
  = (Ok tt,
     World (Stack.of_list (absorb 0 [clamp_score n] l))
       (out' ++ [Report KFunction name n (clamp_score n)])).
Proof.
  intros H Hov. unfold visit_FunctionDef, bind.
  rewrite stack_push_of_list, H, stack_pop_of_list.
  cbn [lift ctx_calls]. rewrite func_entropy_MAX_CALLS, Hov.
  cbn [print stack stdout]. rewrite stack_len_of_list.
  destruct (snoc_cases l) as [-> | (l0 & c & ->)]; [reflexivity |].
  rewrite len_snoc_nonzero, stack_peek_of_list, absorb_snoc.
  destruct c as [fs | m]; cbn [ctx_type String.eqb Ascii.eqb Bool.eqb].
  - rewrite stack_peek_of_list.
    cbn [lift append_function ctx_functions outcome_bind].
    now rewrite stack_mutate_peek_of_list.
  - cbn [ret absorb_ctx]. now rewrite Z.add_0_r.
Qed.

Lemma visit_FunctionDef_overflow name n out' :
  gv (World (Stack.of_list (l ++ [FunctionContext 0])) out)
  = (Ok tt, World (Stack.of_list (l ++ [FunctionContext n])) out') ->
  overflows n = true ->
  visit_FunctionDef name gv (World (Stack.of_list l) out)
  = (Raise OverflowError, World (Stack.of_list l) out').
Proof.
  intros H Hov. unfold visit_FunctionDef, bind.
  rewrite stack_push_of_list, H, stack_pop_of_list.
  cbn [lift ctx_calls]. now rewrite func_entropy_MAX_CALLS, Hov.
Qed.

Lemma visit_ClassDef_raise name e w' :
  gv (World (Stack.of_list (l ++ [ClassContext []])) out) = (Raise e, w') ->
  visit_ClassDef name gv (World (Stack.of_list l) out) = (Raise e, w').
Proof.
  intros H. unfold visit_ClassDef, bind.
  now rewrite stack_push_of_list, H.
Qed.

Lemma visit_ClassDef_no_function name out' :
  gv (World (Stack.of_list (l ++ [ClassContext []])) out)
  = (Ok tt, World (Stack.of_list (l ++ [ClassContext []])) out') ->
  visit_ClassDef name gv (World (Stack.of_list l) out)
  = (Raise TypeError, World (Stack.of_list l) out').
Proof.
  intros H. unfold visit_ClassDef, bind.
  now rewrite stack_push_of_list, H, stack_pop_of_list.
Qed.

Lemma visit_ClassDef_ok name f fs out' :
  gv (World (Stack.of_list (l ++ [ClassContext []])) out)
  = (Ok tt, World (Stack.of_list (l ++ [ClassContext (f :: fs)])) out') ->
  visit_ClassDef name gv (World (Stack.of_list l) out)
  = (Ok tt,
     World (Stack.of_list l)
       (out' ++ [Report KClass name (PyList.len (f :: fs))
                   (product (f :: fs))])).
Proof.
  intros H. unfold visit_ClassDef, bind.
  now rewrite stack_push_of_list, H, stack_pop_of_list.
Qed.

End Methods.

Lemma visit_post_visit n :
  forall l out,
    visit_post (safe_node (top_kind l) n) (own_calls_node n)
      (own_scores_node n) (results_node n) l out
      (visit n (World (Stack.of_list l) out)).
Proof.
  induction n as [name cs IH | name cs IH | cs IH | cs IH]
    using node_forall_ind; intros l out;
    pose proof (generic_visit_post cs IH) as Hcs; clear IH.
  - (* ClassDef *)
    specialize (Hcs (l ++ [ClassContext []]) out).
    rewrite top_kind_snoc in Hcs.
    cbn [visit safe_node own_calls_node own_scores_node results_node].
    fold (generic_visit cs). fold (safe (Some KClass) cs).
    fold (own_scores cs) (results cs).
    cbn [ctx_kind] in Hcs.
    destruct (generic_visit cs _) as [[[] | e] w1] eqn:Hgv;
      cbn [visit_post] in Hcs.
    + rewrite absorb_snoc in Hcs. cbn [absorb_ctx app] in Hcs.
      destruct Hcs as [Hsafe ->].
      destruct (own_scores cs) as [| f fs] eqn:Hfs.
      * rewrite (visit_ClassDef_no_function _ _ _ _ _ Hgv).
        cbn [visit_post]. split; [now rewrite Hsafe |].
        split; [right; now left |].
        exists 0, [], [], (results cs),
          [Report KClass name (PyList.len (@nil Q)) (product [])].
        now rewrite absorb_neutral, app_nil_r.
      * rewrite (visit_ClassDef_ok _ _ _ _ _ _ _ Hgv).
        cbn [visit_post]. split; [now rewrite Hsafe |].
        now rewrite absorb_neutral, app_assoc.
    + destruct Hcs as (Hsafe & He & c1 & s1 & rest & pre & suf & -> & Hrs).
      rewrite (visit_ClassDef_raise _ _ _ _ _ _ Hgv).
      cbn [visit_post]. split; [now rewrite Hsafe |]. split; [exact He |].
      exists 0, [], ([absorb_ctx c1 s1 (ClassContext [])] ++ rest), pre,
        (suf ++ [Report KClass name (PyList.len (own_scores cs))
                   (product (own_scores cs))]).
      split.
      * now rewrite absorb_neutral, absorb_snoc, <- app_assoc.
      * now rewrite Hrs, app_assoc.
  - (* FunctionDef *)
    specialize (Hcs (l ++ [FunctionContext 0]) out).
    rewrite top_kind_snoc in Hcs.
    cbn [visit safe_node own_calls_node own_scores_node results_node].
    fold (generic_visit cs). fold (safe (Some KFunction) cs).
    fold (own_calls cs) (results cs).
    cbn [ctx_kind] in Hcs.
    destruct (generic_visit cs _) as [[[] | e] w1] eqn:Hgv;
      cbn [visit_post] in Hcs.
    + rewrite absorb_snoc in Hcs. cbn [absorb_ctx] in Hcs.
      rewrite Z.add_0_l in Hcs.
      destruct Hcs as [Hsafe ->].
      destruct (overflows (own_calls cs)) eqn:Hov.
      * rewrite (visit_FunctionDef_overflow _ _ _ _ _ _ Hgv Hov).
        cbn [visit_post]. split; [now rewrite Hsafe |].
        split; [right; now right |].
        exists 0, [], [], (results cs),
          [Report KFunction name (own_calls cs) (clamp_score (own_calls cs))].
        now rewrite absorb_neutral, app_nil_r.
      * rewrite (visit_FunctionDef_ok _ _ _ _ _ _ Hgv Hov).
        cbn [visit_post]. split; [now rewrite Hsafe |].
        now rewrite app_assoc.
    + destruct Hcs as (Hsafe & He & c1 & s1 & rest & pre & suf & -> & Hrs).
      rewrite (visit_FunctionDef_raise _ _ _ _ _ _ Hgv).
      cbn [visit_post]. split; [now rewrite Hsafe |]. split; [exact He |].
      exists 0, [], ([absorb_ctx c1 s1 (FunctionContext 0)] ++ rest), pre,
        (suf ++ [Report KFunction name (own_calls cs)
                   (clamp_score (own_calls cs))]).
      split.
      * now rewrite absorb_neutral, absorb_snoc, <- app_assoc.
      * now rewrite Hrs, app_assoc.
  - (* Call *)
    cbn [visit safe_node own_calls_node own_scores_node results_node].
    fold (generic_visit cs). fold (own_calls cs) (own_scores cs) (results cs).
    destruct (snoc_cases l) as [-> | (l0 & c & ->)].
    + rewrite visit_Call_empty_stack. exact (Hcs [] out).
    + rewrite top_kind_snoc.
      destruct c as [fs | m]; cbn [ctx_kind is_class negb andb].
      * rewrite visit_Call_in_class. cbn [visit_post].
        split; [reflexivity |]. split; [now left |].
        exists 0, [], [], [], (results cs).
        now rewrite absorb_neutral, !app_nil_r.
      * rewrite visit_Call_in_function.
        specialize (Hcs (l0 ++ [FunctionContext (m + 1)]) out).
        rewrite top_kind_snoc in Hcs. cbn [ctx_kind] in Hcs.
        fold (safe (Some KFunction) cs).
        destruct (generic_visit cs _) as [[[] | e] w1]; cbn [visit_post] in *.
        -- destruct Hcs as [Hsafe ->]. split; [exact Hsafe |].
           rewrite !absorb_snoc. cbn [absorb_ctx].
           now rewrite Z.add_assoc.
        -- destruct Hcs as (Hsafe & He & c1 & s1 & rest & pre & suf & -> & Hrs).
           split; [exact Hsafe |]. split; [exact He |].
           exists (1 + c1), s1, rest, pre, suf. split; [| exact Hrs].
           rewrite !absorb_snoc. cbn [absorb_ctx].
           now rewrite Z.add_assoc.
  - (* Other *)
    exact (Hcs l out).
Qed.

Lemma visit_post_generic_visit cs :
  forall l out,
    visit_post (safe (top_kind l) cs) (own_calls cs) (own_scores cs)
      (results cs) l out (generic_visit cs (World (Stack.of_list l) out)).
Proof.
  apply generic_visit_post. apply Forall_forall. intros n _.
  apply visit_post_visit.
Qed.

(** ** Consequences for a whole visit *)

Lemma visit_ok n l out w' :
  visit n (World (Stack.of_list l) out) = (Ok tt, w') ->
  safe_node (top_kind l) n = true
  /\ w' = World (Stack.of_list (absorb (own_calls_node n) (own_scores_node n) l))
            (out ++ results_node n).
Proof.
  intros H. pose proof (visit_post_visit n l out) as P.
  rewrite H in P. exact P.
Qed.

(** The visitor runs to completion on every safe tree. *)
Lemma visit_safe n l out :
  safe_node (top_kind l) n = true ->
  visit n (World (Stack.of_list l) out)
  = (Ok tt,
     World (Stack.of_list (absorb (own_calls_node n) (own_scores_node n) l))
       (out ++ results_node n)).
Proof.
  intros H. pose proof (visit_post_visit n l out) as P.
  destruct (visit n _) as [[[] | e] w']; cbn [visit_post] in P.
  - now destruct P as [_ ->].
  - destruct P as [P _]. congruence.
Qed.

Lemma visit_raise n l out e w' :
  visit n (World (Stack.of_list l) out) = (Raise e, w') ->
  safe_node (top_kind l) n = false
  /\ (e = KeyError \/ e = TypeError \/ e = OverflowError)
  /\ exists calls' scores' rest pre suf,
      w' = World (Stack.of_list (absorb calls' scores' l ++ rest)) (out ++ pre)
      /\ results_node n = pre ++ suf.
Proof.
  intros H. pose proof (visit_post_visit n l out) as P.
  rewrite H in P. exact P.
Qed.

Lemma generic_visit_ok cs l out w' :
  generic_visit cs (World (Stack.of_list l) out) = (Ok tt, w') ->
  safe (top_kind l) cs = true
  /\ w' = World (Stack.of_list (absorb (own_calls cs) (own_scores cs) l))
            (out ++ results cs).
Proof.
  intros H. pose proof (visit_post_generic_visit cs l out) as P.
  rewrite H in P. exact P.
Qed.

(** ** Classes *)

(** C1 -- a class that collected no score.  The specification wants a
    report with score 1 for it; [reduce] is called without an initial
    value, so closing such a class raises [TypeError] and prints nothing
    for it, wherever the class sits. *)
Theorem class_without_function_raises :
  forall (name : string) (l : list context) (out : list report),
    visit (ClassDef name []) (World (Stack.of_list l) out)
    = (Raise TypeError, World (Stack.of_list l) out)
    /\ analyze (Other [ClassDef name [Other []]]) = (Raise TypeError, []).
Proof.
  intros name l out. split.
  - cbn [visit generic_visit_with].
    now apply visit_ClassDef_no_function.
  - reflexivity.
Qed.

(** The same for any body that runs to completion without closing a
    function directly in the class. *)
Lemma class_collecting_nothing_raises name cs l out :
  safe (Some KClass) cs = true ->
  own_scores cs = [] ->
  visit (ClassDef name cs) (World (Stack.of_list l) out)
  = (Raise TypeError, World (Stack.of_list l) (out ++ results cs)).
Proof.
  intros Hsafe Hnil.
  pose proof (visit_post_visit (ClassDef name cs) l out) as P.
  cbn [safe_node own_scores_node] in P.
  fold (safe (Some KClass) cs) (own_scores cs) in P.
  rewrite Hsafe, Hnil in P. cbn [is_nil negb andb] in P.
  pose proof (visit_post_generic_visit cs (l ++ [ClassContext []]) out) as G.
  rewrite top_kind_snoc in G. cbn [ctx_kind] in G. rewrite Hsafe in G.
  destruct (generic_visit cs _) as [[[] | e] w1] eqn:Hgv; cbn [visit_post] in G.
  - destruct G as [_ ->]. rewrite absorb_snoc, Hnil in Hgv.
    cbn [visit]. fold (generic_visit cs).
    now apply visit_ClassDef_no_function.
  - destruct G as [G _]. discriminate.
Qed.

(** C2 -- a call directly in a class body.  The specification wants it
    dropped silently; [visit_Call] increments ["calls"] on whatever
    context is on top, and a class context has no such key: the visit
    raises [KeyError] before it recurses into the call's children, as
    for [class C: x = foo()]. *)
Theorem call_in_class_body_raises :
  forall (cs : list node) (l : list context) (fs : list Q)
         (out : list report),
    visit (Call cs) (World (Stack.of_list (l ++ [ClassContext fs])) out)
    = (Raise KeyError, World (Stack.of_list (l ++ [ClassContext fs])) out)
    /\ analyze (Other [ClassDef "C" [Other [Other []; Call [Other []]]]])
       = (Raise KeyError, []).
Proof.
  intros cs l fs out. split.
  - cbn [visit]. apply visit_Call_in_class.
  - reflexivity.
Qed.

(** C3, as stated, fails: closing the class [Inner] with the context of
    an enclosing class exposed on top leaves that context's score list
    empty, and the enclosing class [Outer] reports one function, [g]. *)
Lemma nested_class_score_not_appended :
  let inner := ClassDef "Inner" [FunctionDef "f" []] in
  let r := visit inner (World (Stack.of_list [ClassContext []]) []) in
  fst r = Ok tt
  /\ stack (snd r) = Stack.of_list [ClassContext []]
  /\ ~ (exists score,
          stack (snd r) = Stack.of_list [ClassContext ([] ++ [score])])
  /\ map (fun x => (r_name x, r_count x))
       (snd (analyze (ClassDef "Outer" [inner; FunctionDef "g" []])))
     = [("f", 0); ("Inner", 1); ("g", 0); ("Outer", 1)]%string.
Proof.
  cbv zeta. repeat split.
  intros [score H]. discriminate H.
Qed.

(** C3, amended -- when a class closes, the stack is again what it was
    when the class was entered, whatever it holds: the context exposed
    on top, a class's included, receives nothing.  Only a closing
    function feeds the class context it exposes. *)
Theorem closing_class_feeds_no_context :
  forall (name : string) (cs : list node) (l : list context)
         (out : list report) (w' : world),
    visit (ClassDef name cs) (World (Stack.of_list l) out) = (Ok tt, w') ->
    stack w' = Stack.of_list l
    /\ forall l0 fs fname body out1 w1,
         l = l0 ++ [ClassContext fs] ->
         visit (FunctionDef fname body) (World (stack w') out1) = (Ok tt, w1) ->
         stack w1
         = Stack.of_list
             (l0 ++ [ClassContext (fs ++ [clamp_score (own_calls body)])]).
Proof.
  intros name cs l out w' H.
  apply visit_ok in H. destruct H as [_ ->].
  cbn [own_calls_node own_scores_node stack].
  rewrite absorb_neutral. split; [reflexivity |].
  intros l0 fs fname body out1 w1 -> H1.
  apply visit_ok in H1. destruct H1 as [_ ->].
  cbn [own_calls_node own_scores_node stack].
  now rewrite absorb_snoc.
Qed.

Lemma closing_class_feeds_no_context_witness :
  let inner := ClassDef "Inner" [FunctionDef "f" [Call []]] in
  let l := [FunctionContext 4; ClassContext [1 # 2]] in
  let w := World (Stack.of_list l) [] in
  let w' := snd (visit inner w) in
  visit inner w = (Ok tt, w')
  /\ stack w' = Stack.of_list l
  /\ forall l0 fs fname body out1 w1,
       l = l0 ++ [ClassContext fs] ->
       visit (FunctionDef fname body) (World (stack w') out1) = (Ok tt, w1) ->
       stack w1
       = Stack.of_list
           (l0 ++ [ClassContext (fs ++ [clamp_score (own_calls body)])]).
Proof.
  intros inner l w w'.
  assert (H : visit inner w = (Ok tt, w')) by (vm_compute; reflexivity).
  split; [exact H |].
  exact (closing_class_feeds_no_context "Inner" [FunctionDef "f" [Call []]]
           l [] w' H).
Defined.

(** ** Functions *)

Lemma generic_visit_safe cs l out :
  safe (top_kind l) cs = true ->
  generic_visit cs (World (Stack.of_list l) out)
  = (Ok tt,
     World (Stack.of_list (absorb (own_calls cs) (own_scores cs) l))
       (out ++ results cs)).
Proof.
  intros H. pose proof (visit_post_generic_visit cs l out) as P.
  destruct (generic_visit cs _) as [[[] | e] w']; cbn [visit_post] in P.
  - now destruct P as [_ ->].
  - destruct P as [P _]. congruence.
Qed.

(** A function's score lies between 0 and 1. *)
Lemma clamp_score_range n : (0 <= clamp_score n <= 1)%Q.
Proof.
  unfold clamp_score. split.
  - apply Q.le_max_r.
  - apply Q.max_lub; [apply Q.le_min_r | discriminate].
Qed.

Lemma truediv_MAX_CALLS n :
  overflows n = false ->
  truediv n 10 = Ok (round64 (inject_Z n / inject_Z 10)).
Proof.
  unfold overflows, truediv. change (10 =? 0) with false. cbv iota.
  now intros ->.
Qed.

(** C4 -- when a function's scope closes with [n] calls counted on its
    context, the report printed for it carries [n] and the score
    [max(min(1 - n/10, 1), 0)], the division and the subtraction being
    those of Python on binary64: 1 for no call, 1/2 for five, 0 for ten
    and still 0 for fifteen. *)
Theorem function_score_formula :
  forall (name : string) (cs : list node) (l : list context)
         (out : list report) (w' : world),
    visit (FunctionDef name cs) (World (Stack.of_list l) out) = (Ok tt, w') ->
    exists (n : Z) (emitted : list report) (tenth q : Q),
      generic_visit cs (World (Stack.of_list (l ++ [FunctionContext 0])) out)
      = (Ok tt,
         World (Stack.of_list (l ++ [FunctionContext n])) (out ++ emitted))
      /\ stdout w' = out ++ emitted ++ [Report KFunction name n q]
      /\ truediv n 10 = Ok tenth
      /\ q = Qmax (Qmin (fsub 1 tenth) 1) 0
      /\ (n = 0 -> q = 1%Q)
      /\ (n = 5 -> q = (1 # 2)%Q)
      /\ (n = 10 -> q = 0%Q)
      /\ (n = 15 -> q = 0%Q).
Proof.
  intros name cs l out w' H.
  apply visit_ok in H. destruct H as [Hsafe ->].
  cbn [safe_node] in Hsafe. apply andb_prop in Hsafe.
  destruct Hsafe as [Hsafe Hov]. fold (safe (Some KFunction) cs) in Hsafe.
  fold (own_calls cs) in Hov. apply negb_true_iff in Hov.
  exists (own_calls cs), (results cs),
    (round64 (inject_Z (own_calls cs) / inject_Z 10)),
    (clamp_score (own_calls cs)).
  split.
  - rewrite generic_visit_safe by (now rewrite top_kind_snoc).
    rewrite absorb_snoc. cbn [absorb_ctx]. now rewrite Z.add_0_l.
  - split; [reflexivity |]. split; [now apply truediv_MAX_CALLS |].
    split; [reflexivity |].
    repeat split; intros ->; vm_compute; reflexivity.
Qed.

Lemma function_score_formula_witness :
  let f := FunctionDef "f" [Call []; Call []; Call [Call []]; Call []] in
  let w0 := World (Stack.of_list []) [] in
  visit f w0 = (Ok tt, snd (visit f w0))
  /\ exists (n : Z) (emitted : list report) (tenth q : Q),
      generic_visit (children f)
        (World (Stack.of_list ([] ++ [FunctionContext 0])) [])
      = (Ok tt,
         World (Stack.of_list ([] ++ [FunctionContext n])) ([] ++ emitted))
      /\ stdout (snd (visit f w0)) = [] ++ emitted ++ [Report KFunction "f" n q]
      /\ truediv n 10 = Ok tenth
      /\ q = Qmax (Qmin (fsub 1 tenth) 1) 0
      /\ (n = 0 -> q = 1%Q)
      /\ (n = 5 -> q = (1 # 2)%Q)
      /\ (n = 10 -> q = 0%Q)
      /\ (n = 15 -> q = 0%Q).
Proof.
  intros f w0.
  assert (H : visit f w0 = (Ok tt, snd (visit f w0)))
    by (vm_compute; reflexivity).
  split; [exact H |].
  exact (function_score_formula "f" (children f) [] [] (snd (visit f w0)) H).
Defined.

(** The four scores of the specification, on functions that hold
    nothing but calls; with eight calls the score is the float next
    below 1/5, which is what Python computes for [1 - 8/10]. *)
Example score_of_0_5_10_15_calls :
  map (fun k =>
         map (fun r => (r_count r, Qred (r_entropy r)))
           (snd (analyze (FunctionDef "f" (repeat (Call []) k)))))
    [0; 5; 10; 15]%nat
  = [[(0, 1%Q)]; [(5, (1 # 2)%Q)]; [(10, 0%Q)]; [(15, 0%Q)]].
Proof. vm_compute. reflexivity. Qed.

Example score_of_8_calls :
  map r_entropy (snd (analyze (FunctionDef "f" (repeat (Call []) 8))))
  = [(900719925474099 # 4503599627370496)%Q]
  /\ (900719925474099 # 4503599627370496 < 1 # 5)%Q.
Proof. split; vm_compute; reflexivity. Qed.

(** *** Reading [own_calls]: it stops at scopes and counts the rest *)

Lemma own_calls_app cs1 cs2 :
  own_calls (cs1 ++ cs2) = own_calls cs1 + own_calls cs2.
Proof.
  unfold own_calls. induction cs1 as [| c cs1 IH]; simpl; [reflexivity |].
  rewrite IH. lia.
Qed.

Lemma own_calls_cons c cs :
  own_calls (c :: cs) = own_calls_node c + own_calls cs.
Proof. reflexivity. Qed.

Lemma own_calls_skips_function pre name body post :
  own_calls (pre ++ FunctionDef name body :: post) = own_calls (pre ++ post).
Proof.
  rewrite !own_calls_app, own_calls_cons. cbn [own_calls_node]. lia.
Qed.

Lemma own_calls_skips_class pre name body post :
  own_calls (pre ++ ClassDef name body :: post) = own_calls (pre ++ post).
Proof.
  rewrite !own_calls_app, own_calls_cons. cbn [own_calls_node]. lia.
Qed.

Lemma own_calls_counts_call pre cs post :
  own_calls (pre ++ Call cs :: post) = 1 + own_calls (pre ++ cs ++ post).
Proof.
  rewrite !own_calls_app, own_calls_cons. cbn [own_calls_node].
  fold (own_calls cs). lia.
Qed.

Lemma nth_error_absorb_function scores l i c :
  nth_error l i = Some (FunctionContext c) ->
  nth_error (absorb 0 scores l) i = Some (FunctionContext c).
Proof.
  destruct (snoc_cases l) as [-> | (l0 & top & ->)]; [easy |].
  rewrite absorb_snoc. intros H.
  destruct (Nat.lt_ge_cases i (List.length l0)) as [Hi | Hi].
  - rewrite nth_error_app1 in * by assumption. exact H.
  - rewrite nth_error_app2 in * by assumption.
    destruct (i - List.length l0)%nat as [| k]; simpl in *.
    + injection H as ->. simpl. now rewrite Z.add_0_r.
    + now destruct k.
Qed.

(** C5 -- calls below a nested function are counted on that function
    only.  Whatever function counters are on the stack when the inner
    function is entered (the enclosing function's among them) read the
    same once its visit is over, however it ends; the visit completes
    on every safe inner function, and when it completes the count
    reported for the inner function is the number of calls whose
    nearest enclosing scope it is. *)
Theorem nested_function_calls_stay_inner :
  forall (name : string) (body : list node) (l : list context)
         (out : list report) (i : nat) (c : Z),
    nth_error l i = Some (FunctionContext c) ->
    let r := visit (FunctionDef name body) (World (Stack.of_list l) out) in
    nth_error (Stack.inner (stack (snd r))) i = Some (FunctionContext c)
    /\ (fst r = Ok tt ->
        stdout (snd r)
        = out ++ results body
          ++ [Report KFunction name (own_calls body)
                (clamp_score (own_calls body))])
    /\ (safe_node (top_kind l) (FunctionDef name body) = true ->
        fst r = Ok tt).
Proof.
  intros name body l out i c Hi r. subst r.
  pose proof (visit_post_generic_visit body (l ++ [FunctionContext 0]) out) as G.
  pose proof (visit_post_visit (FunctionDef name body) l out) as V.
  cbn [visit] in *. fold (generic_visit body) in *.
  destruct (generic_visit body _) as [[[] | e] w1] eqn:Hgv; cbn [visit_post] in G.
  - destruct G as [_ ->]. rewrite absorb_snoc in Hgv. cbn [absorb_ctx] in Hgv.
    rewrite Z.add_0_l in Hgv.
    destruct (overflows (own_calls body)) eqn:Hov.
    + rewrite (visit_FunctionDef_overflow _ _ _ _ _ _ Hgv Hov) in *.
      cbn [fst snd stack stdout Stack.inner Stack.of_list visit_post] in *.
      split; [exact Hi |]. split; [discriminate |].
      destruct V as [V _]. congruence.
    + rewrite (visit_FunctionDef_ok _ _ _ _ _ _ Hgv Hov) in *.
      cbn [fst snd stack stdout Stack.inner Stack.of_list]. split.
      * now apply nth_error_absorb_function.
      * split; [intros _; now rewrite app_assoc | reflexivity].
  - destruct G as (_ & _ & c1 & s1 & rest & pre & suf & -> & _).
    rewrite (visit_FunctionDef_raise _ _ _ _ _ _ Hgv) in *.
    cbn [fst snd stack stdout Stack.inner Stack.of_list visit_post] in *.
    split.
    + rewrite absorb_snoc, <- app_assoc.
      rewrite nth_error_app1; [exact Hi |].
      apply nth_error_Some. congruence.
    + split; [discriminate |]. destruct V as [V _]. congruence.
Qed.

Lemma nested_function_calls_stay_inner_witness :
  let body := [Call []; Other [Call [Call []]]; FunctionDef "h" [Call []]] in
  let l := [ClassContext []; FunctionContext 3] in
  let r := visit (FunctionDef "g" body) (World (Stack.of_list l) []) in
  nth_error l 1 = Some (FunctionContext 3)
  /\ safe_node (top_kind l) (FunctionDef "g" body) = true
  /\ nth_error (Stack.inner (stack (snd r))) 1 = Some (FunctionContext 3)
  /\ fst r = Ok tt
  /\ stdout (snd r)
     = [] ++ results body
       ++ [Report KFunction "g" (own_calls body)
             (clamp_score (own_calls body))]
  /\ own_calls body = 3
  /\ map (fun x => (r_name x, r_count x)) (results body) = [("h", 1)]%string.
Proof.
  intros body l r.
  assert (H1 : nth_error l 1 = Some (FunctionContext 3)) by reflexivity.
  assert (H2 : safe_node (top_kind l) (FunctionDef "g" body) = true)
    by (vm_compute; reflexivity).
  destruct (nested_function_calls_stay_inner "g" body l [] 1%nat 3 H1)
    as (K1 & K2 & K3).
  split; [exact H1 |]. split; [exact H2 |]. split; [exact K1 |].
  split; [exact (K3 H2) |]. split; [exact (K2 (K3 H2)) |].
  split; reflexivity.
Defined.

(** [def f(): a(); def g(): b(); c()]: two calls for [g], one for [f]. *)
Example nested_function_counts :
  map (fun r => (r_name r, r_count r))
    (snd (analyze
            (FunctionDef "f" [Call []; FunctionDef "g" [Call []; Call []]])))
  = [("g", 2); ("f", 1)]%string.
Proof. reflexivity. Qed.

(** ** Order of the reports *)

Lemma label_results_node n : map label (results_node n) = postorder n.
Proof.
  induction n as [name cs IH | name cs IH | cs IH | cs IH]
    using node_forall_ind;
    cbn [results_node postorder]; rewrite ?map_app; cbn [map label];
    try (f_equal; [idtac]);
    (induction IH as [| c cs Hc _ IHcs]; [reflexivity |];
     cbn [map List.concat]; now rewrite map_app, Hc, IHcs).
Qed.

(** C6 -- reports come out in the order the scopes close.  What
    [analyze] prints is a prefix of the post-order enumeration of the
    scopes of the tree, the whole of it when the traversal completes;
    for [class C: def f(): def g(): pass] it is [g], [f], [C]. *)
Theorem emission_order_is_postorder :
  forall tree : node,
    let r := analyze tree in
    (exists rest, postorder tree = map label (snd r) ++ rest)
    /\ (fst r = Ok tt -> map label (snd r) = postorder tree)
    /\ map label
         (snd (analyze
                 (ClassDef "C"
                    [FunctionDef "f"
                       [Other []; FunctionDef "g" [Other []; Other []]]])))
       = [(KFunction, "g"); (KFunction, "f"); (KClass, "C")]%string.
Proof.
  intros tree r. subst r. unfold analyze, main.
  change Analyzer_init with (Stack.of_list (@nil context)).
  pose proof (visit_post_visit tree [] []) as P.
  destruct (visit tree _) as [[[] | e] w']; cbn [visit_post fst snd] in *.
  - destruct P as [_ ->]. cbn [stdout app].
    rewrite label_results_node. repeat split.
    exists []. now rewrite app_nil_r.
  - destruct P as (_ & _ & c1 & s1 & rest & pre & suf & -> & Hrs).
    cbn [stdout app]. repeat split; [| discriminate].
    exists (map label suf).
    now rewrite <- label_results_node, Hrs, map_app.
Qed.

Lemma emission_order_is_postorder_witness :
  let tree :=
    Other [ClassDef "A" [FunctionDef "m" [Call []; FunctionDef "k" []]];
           FunctionDef "top" [Other [Call []]]] in
  let r := analyze tree in
  fst r = Ok tt
  /\ map label (snd r) = postorder tree
  /\ postorder tree
     = [(KFunction, "k"); (KFunction, "m"); (KClass, "A");
        (KFunction, "top")]%string.
Proof.
  intros tree r. split; [reflexivity |]. split; [| reflexivity].
  apply (emission_order_is_postorder tree). reflexivity.
Defined.

(** ** Calls outside every scope *)

(** C7 -- a call met while the stack is empty.  [visit_Call] then does
    what [generic_visit] does and nothing else: no exception of its
    own, no counter touched, the children visited from the very same
    world; with no child, the world is returned as it was. *)
Theorem module_level_call_is_uncounted :
  forall (cs : list node) (out : list report),
    visit (Call cs) (World Analyzer_init out)
    = generic_visit cs (World Analyzer_init out)
    /\ visit (Call []) (World Analyzer_init out)
       = (Ok tt, World Analyzer_init out)
    /\ (safe None cs = true ->
        visit (Call cs) (World Analyzer_init out)
        = (Ok tt, World Analyzer_init (out ++ results cs))).
Proof.
  intros cs out.
  change Analyzer_init with (Stack.of_list (@nil context)).
  cbn [visit]. fold (generic_visit cs).
  rewrite !visit_Call_empty_stack. repeat split.
  intros Hsafe. now rewrite generic_visit_safe.
Qed.

Lemma module_level_call_is_uncounted_witness :
  let cs := [Call []; Other [Call [Call []]]; FunctionDef "f" [Call []]] in
  safe None cs = true
  /\ visit (Call cs) (World Analyzer_init [])
     = (Ok tt, World Analyzer_init ([] ++ results cs)).
Proof.
  intros cs. split; [reflexivity |].
  apply (module_level_call_is_uncounted cs []). reflexivity.
Defined.

(** ** The stack during a traversal *)

(** [enter n] is the part of [visit n] that runs before its children
    are visited. *)
Lemma visit_enter n :
  exists k : M unit,
    forall w, visit n w = (enter n ;; generic_visit (children n) ;; k) w.
Proof.
  destruct n as [name cs | name cs | cs | cs]; cbn [visit enter children];
    fold (generic_visit cs).
  - eexists. intros w. unfold visit_ClassDef. reflexivity.
  - eexists. intros w. unfold visit_FunctionDef. reflexivity.
  - exists (ret tt). intros w. unfold visit_Call, bind.
    destruct (stack_len w) as [[k | e] w0]; [| reflexivity].
    destruct (k =? 0).
    + cbn [ret]. now destruct (generic_visit cs w0) as [[[] | e] w1].
    + destruct (stack_peek w0) as [[top | e] w1]; [| reflexivity].
      destruct (lift (incr_calls top) w1) as [[top' | e] w2]; [| reflexivity].
      destruct (stack_mutate_peek top' w2) as [[[] | e] w3]; [| reflexivity].
      now destruct (generic_visit cs w3) as [[[] | e] w4].
  - exists (ret tt). intros w. unfold bind, ret.
    now destruct (generic_visit cs w) as [[[] | e] w1].
Qed.

(** The children are visited from left to right, each in the world the
    previous ones leave; the first exception ends the iteration. *)
Lemma generic_visit_split pre c post w :
  generic_visit (pre ++ c :: post) w
  = (generic_visit pre ;; visit c ;; generic_visit post) w.
Proof.
  revert w. induction pre as [| p pre IH]; intros w.
  - reflexivity.
  - cbn [app]. rewrite generic_visit_cons.
    change ((generic_visit (p :: pre) ;; visit c ;; generic_visit post) w)
      with (match generic_visit (p :: pre) w with
            | (Ok _, w') => (visit c ;; generic_visit post) w'
            | (Raise e, w') => (Raise e, w')
            end).
    rewrite generic_visit_cons.
    destruct (visit p w) as [[[] | e] w1]; [| reflexivity].
    rewrite IH. reflexivity.
Qed.

Lemma stands_for_kinds l l' path :
  map ctx_kind l' = map ctx_kind l ->
  Forall2 stands_for l path -> Forall2 stands_for l' path.
Proof.
  intros Hk H. revert l' Hk.
  induction H as [| c n l path Hc _ IH]; intros [| c' l'] Hk;
    try discriminate; constructor.
  - unfold stands_for in *. injection Hk as Hk _. now rewrite Hk.
  - apply IH. now injection Hk.
Qed.

Lemma enter_mirrors n l out w1 path :
  enter n (World (Stack.of_list l) out) = (Ok tt, w1) ->
  Forall2 stands_for l path ->
  exists l1, w1 = World (Stack.of_list l1) out
             /\ Forall2 stands_for l1 (path ++ opened n).
Proof.
  intros He Hl.
  destruct n as [name cs | name cs | cs | cs]; cbn [enter opened scope_kind_of] in *.
  - rewrite stack_push_of_list in He. injection He as <-.
    eexists. split; [reflexivity |].
    apply Forall2_app; [exact Hl | now repeat constructor].
  - rewrite stack_push_of_list in He. injection He as <-.
    eexists. split; [reflexivity |].
    apply Forall2_app; [exact Hl | now repeat constructor].
  - rewrite app_nil_r. unfold bind in He. rewrite stack_len_of_list in He.
    destruct (snoc_cases l) as [-> | (l0 & c & ->)].
    + injection He as <-. now exists [].
    + rewrite len_snoc_nonzero, stack_peek_of_list in He.
      destruct c as [fs | m]; [discriminate |].
      cbn [lift incr_calls ctx_calls outcome_bind] in He.
      rewrite stack_mutate_peek_of_list in He. injection He as <-.
      eexists. split; [reflexivity |].
      eapply stands_for_kinds; [| exact Hl].
      now rewrite !map_app.
  - rewrite app_nil_r. injection He as <-. now exists l.
Qed.

Lemma Visiting_mirrors root path n w :
  Visiting root path n w ->
  exists l, stack w = Stack.of_list l /\ Forall2 stands_for l path.
Proof.
  induction 1 as [| path n w w1 w2 pre c post _ IH He _ Hpre].
  - exists []. split; [reflexivity | constructor].
  - destruct IH as (l & Hw & Hl). destruct w as [s out]. cbn [stack] in Hw.
    subst s. destruct (enter_mirrors _ _ _ _ _ He Hl) as (l1 & -> & Hl1).
    apply generic_visit_ok in Hpre. destruct Hpre as [_ ->].
    eexists. split; [reflexivity |].
    eapply stands_for_kinds; [apply kinds_absorb | exact Hl1].
Qed.

(** Every visit is [enter], then the children, then [leave]. *)
Lemma visit_enter_leave n w :
  visit n w = (enter n ;; generic_visit (children n) ;; leave n) w.
Proof.
  destruct n as [name cs | name cs | cs | cs]; cbn [visit enter leave children];
    fold (generic_visit cs).
  - reflexivity.
  - reflexivity.
  - unfold visit_Call, bind.
    destruct (stack_len w) as [[k | e] w0]; [| reflexivity].
    destruct (k =? 0).
    + cbn [ret]. now destruct (generic_visit cs w0) as [[[] | e] w1].
    + destruct (stack_peek w0) as [[top | e] w1]; [| reflexivity].
      destruct (lift (incr_calls top) w1) as [[top' | e] w2]; [| reflexivity].
      destruct (stack_mutate_peek top' w2) as [[[] | e] w3]; [| reflexivity].
      now destruct (generic_visit cs w3) as [[[] | e] w4].
  - unfold bind, ret.
    now destruct (generic_visit cs w) as [[[] | e] w1].
Qed.

(** C8, as stated, fails at its end: the traversal of
    [class C: x = foo()] is ended by the [KeyError] of the call, and the
    context of [C] is still on the stack then. *)
Lemma aborted_traversal_keeps_contexts :
  let tree := Other [ClassDef "C" [Other [Other []; Call [Other []]]]] in
  let r := visit tree (World Stack.init []) in
  fst r = Raise KeyError
  /\ stack (snd r) = Stack.of_list [ClassContext []]
  /\ Stack.len (stack (snd r)) = 1
  /\ stack (snd r) <> Stack.init.
Proof.
  cbv zeta. split; [reflexivity |]. split; [reflexivity |].
  split; [reflexivity | discriminate].
Qed.

(** C8, amended -- the context stack mirrors the open scopes.  Every
    visit is [enter], the visit of the children from left to right,
    then [leave]; whenever the traversal of [root] by a fresh analyzer
    reaches a node, the stack is consistent and holds one context per
    [ClassDef] or [FunctionDef] entered and not yet left, in order, the
    innermost last, which is where [peek] and [pop] read; when the visit
    of that node returns the same holds again.  The stack is empty when
    the traversal starts, and empty at its end when it runs to
    completion. *)
Theorem context_stack_mirrors_open_scopes :
  forall (root : node) (path : list node) (n : node) (w : world),
    Visiting root path n w ->
    (exists l, stack w = Stack.of_list l /\ Forall2 stands_for l path)
    /\ (forall w', visit n w = (Ok tt, w') ->
        exists l', stack w' = Stack.of_list l' /\ Forall2 stands_for l' path)
    /\ Visiting root [] root (World Stack.init [])
    /\ (forall w', visit root (World Stack.init []) = (Ok tt, w') ->
        stack w' = Stack.init)
    /\ (forall m w0,
        visit m w0 = (enter m ;; generic_visit (children m) ;; leave m) w0)
    /\ (forall pre c post w0,
        generic_visit (pre ++ c :: post) w0
        = (generic_visit pre ;; visit c ;; generic_visit post) w0).
Proof.
  intros root path n w HV.
  destruct (Visiting_mirrors _ _ _ _ HV) as (l & Hw & Hl).
  split; [now exists l |]. split; [| split; [| split; [| split]]].
  - intros w' Hv. destruct w as [s out]. cbn [stack] in Hw. subst s.
    apply visit_ok in Hv. destruct Hv as [_ ->].
    eexists. split; [reflexivity |].
    eapply stands_for_kinds; [apply kinds_absorb | exact Hl].
  - constructor.
  - intros w' Hv.
    change (@Stack.init context) with (Stack.of_list (@nil context)) in Hv.
    apply visit_ok in Hv. now destruct Hv as [_ ->].
  - apply visit_enter_leave.
  - apply generic_visit_split.
Qed.

Lemma context_stack_mirrors_open_scopes_witness :
  let call := Call [Call []] in
  let f := FunctionDef "f" [Call []; call] in
  let root := ClassDef "C" [f] in
  let w := World (Stack.of_list [ClassContext []; FunctionContext 1]) [] in
  Visiting root [root; f] call w
  /\ (exists l, stack w = Stack.of_list l /\ Forall2 stands_for l [root; f])
  /\ (forall w', visit call w = (Ok tt, w') ->
      exists l', stack w' = Stack.of_list l'
                 /\ Forall2 stands_for l' [root; f])
  /\ visit call w
     = (Ok tt, World (Stack.of_list [ClassContext []; FunctionContext 3]) [])
  /\ (forall w', visit root (World Stack.init []) = (Ok tt, w') ->
      stack w' = Stack.init)
  /\ fst (visit root (World Stack.init [])) = Ok tt
  /\ visit root (World Stack.init [])
     = (enter root ;; generic_visit (children root) ;; leave root)
         (World Stack.init []).
Proof.
  intros call f root w.
  assert (HV : Visiting root [root; f] call w).
  { apply (Visiting_child root [root] f
             (World (Stack.of_list [ClassContext []]) [])
             (World (Stack.of_list [ClassContext []; FunctionContext 0]) [])
             w [Call []] call []); [| reflexivity ..].
    apply (Visiting_child root [] root (World Analyzer_init [])
             (World (Stack.of_list [ClassContext []]) [])
             (World (Stack.of_list [ClassContext []]) [])
             [] f []); [| reflexivity ..].
    apply Visiting_root. }
  split; [exact HV |].
  destruct (context_stack_mirrors_open_scopes root [root; f] call w HV)
    as (H1 & H2 & _ & H4 & H5 & _).
  split; [exact H1 |]. split; [exact H2 |]. split; [reflexivity |].
  split; [exact H4 |]. split; [vm_compute; reflexivity |].
  exact (H5 root (World Stack.init [])).
Defined.

(** ** Independence from what was printed before *)

Section AppendsOutput.

Context {A B : Type}.

Lemma appends_ret (a : A) : appends_output (ret a).
Proof. intros s out. cbn. now rewrite app_nil_r. Qed.

Lemma appends_lift (o : outcome A) : appends_output (lift o).
Proof. intros s out. cbn. now rewrite app_nil_r. Qed.

Lemma appends_bind (m : M A) (k : A -> M B) :
  appends_output m -> (forall a, appends_output (k a)) ->
  appends_output (bind m k).
Proof.
  intros Hm Hk s out. unfold bind. rewrite Hm.
  destruct (m (World s [])) as [[a | e] [s1 out1]]; cbn [stack stdout];
    [| reflexivity].
  rewrite (Hk a s1 (out ++ out1)), (Hk a s1 out1).
  destruct (k a (World s1 [])) as [r [s2 out2]]. cbn [stack stdout].
  now rewrite app_assoc.
Qed.

End AppendsOutput.

Lemma appends_get_stack : appends_output get_stack.
Proof. intros s out. cbn. now rewrite app_nil_r. Qed.

Lemma appends_put_stack s0 : appends_output (put_stack s0).
Proof. intros s out. cbn. now rewrite app_nil_r. Qed.

Lemma appends_print r : appends_output (print r).
Proof. intros s out. reflexivity. Qed.

Ltac appends :=
  repeat first
    [ assumption
    | apply appends_ret | apply appends_lift | apply appends_get_stack
    | apply appends_put_stack | apply appends_print
    | apply appends_bind; [| intros ?]
    | match goal with |- appends_output (if ?b then _ else _) => destruct b end ].

Lemma appends_visit_ClassDef name gv :
  appends_output gv -> appends_output (visit_ClassDef name gv).
Proof.
  intros H.
  unfold visit_ClassDef, stack_push, stack_pop. appends.
Qed.

Lemma appends_visit_FunctionDef name gv :
  appends_output gv -> appends_output (visit_FunctionDef name gv).
Proof.
  intros H.
  unfold visit_FunctionDef, stack_push, stack_pop, stack_len, stack_peek,
    stack_mutate_peek.
  appends.
Qed.

Lemma appends_visit_Call gv :
  appends_output gv -> appends_output (visit_Call gv).
Proof.
  intros H.
  unfold visit_Call, stack_len, stack_peek, stack_mutate_peek. appends.
Qed.

Lemma appends_generic_visit cs :
  Forall (fun n => appends_output (visit n)) cs ->
  appends_output (generic_visit cs).
Proof.
  induction 1 as [| c cs Hc _ IH].
  - apply (appends_ret tt).
  - change (generic_visit (c :: cs)) with (bind (visit c) (fun _ => generic_visit cs)).
    appends.
Qed.

Lemma appends_visit n : appends_output (visit n).
Proof.
  induction n as [name cs IH | name cs IH | cs IH | cs IH]
    using node_forall_ind;
    apply appends_generic_visit in IH; cbn [visit]; fold (generic_visit cs).
  - now apply appends_visit_ClassDef.
  - now apply appends_visit_FunctionDef.
  - now apply appends_visit_Call.
  - exact IH.
Qed.

(** C9 -- running the analysis twice on one tree.  Each run of [main]
    builds its own analyzer, and a run reads nothing of what the console
    already shows: the second run ends as the first did and prints the
    same reports again, those [analyze] returns for the tree. *)
Theorem analyze_twice_same_reports :
  forall (tree : node) (console : list report),
    let first := main tree console in
    let second := main tree (snd first) in
    fst second = fst first
    /\ fst first = fst (analyze tree)
    /\ snd first = console ++ snd (analyze tree)
    /\ snd second = snd first ++ snd (analyze tree).
Proof.
  intros tree console first second. subst first second.
  unfold analyze, main.
  rewrite (appends_visit tree Analyzer_init console).
  destruct (visit tree (World Analyzer_init [])) as [r [s1 out1]] eqn:H1.
  cbn [fst snd stack stdout].
  rewrite (appends_visit tree Analyzer_init (console ++ out1)), H1.
  cbn [fst snd stack stdout]. repeat split.
Qed.

(** * Further properties of the code *)

(** ** [Stack] on its own *)

(** [pop] and [peek] fail exactly on the empty stack, with [IndexError];
    otherwise both yield the element pushed last and [pop] removes that
    element and no other. *)
Theorem stack_pop_peek_empty_or_last :
  forall (A : Type) (ops : list (Stack.op A)),
    let s := Stack.run ops Stack.init in
    if Stack.len s =? 0 then
      Stack.pop s = Raise IndexError /\ Stack.peek s = Raise IndexError
    else
      exists e s',
        Stack.pop s = Ok (e, s') /\ Stack.peek s = Ok e
        /\ Stack.len s' = Stack.len s - 1
        /\ Stack.inner s = Stack.inner s' ++ [e].
Proof.
  intros A ops s.
  destruct (run_of_list ops (@nil A)) as [l Hl].
  change (Stack.of_list (@nil A)) with (@Stack.init A) in Hl.
  subst s. rewrite Hl.
  destruct (snoc_cases l) as [-> | (l0 & e & ->)].
  - split; reflexivity.
  - rewrite len_of_list, len_snoc_nonzero.
    exists e, (Stack.of_list l0).
    rewrite pop_of_list_snoc, peek_of_list_snoc, !len_of_list, len_app_one.
    repeat split. lia.
Qed.

Lemma push_all_of_list {A : Type} (es l : list A) :
  push_all es (Stack.of_list l) = Stack.of_list (l ++ es).
Proof.
  revert l. induction es as [| e es IH]; intros l; cbn [push_all fold_left].
  - now rewrite app_nil_r.
  - rewrite push_of_list. fold (push_all es (Stack.of_list (l ++ [e]))).
    now rewrite IH, <- app_assoc.
Qed.

Lemma pop_many_of_list {A : Type} (es l : list A) :
  pop_many (List.length es) (Stack.of_list (l ++ es))
  = Ok (rev es, Stack.of_list l).
Proof.
  induction es as [| e es IH] using rev_ind.
  - now rewrite app_nil_r.
  - rewrite length_app, Nat.add_comm. cbn [List.length Nat.add pop_many].
    rewrite app_assoc, pop_of_list_snoc. cbn [outcome_bind fst snd].
    rewrite IH, rev_unit. reflexivity.
Qed.

Lemma pop_many_underflow {A : Type} (n : nat) :
  forall l : list A,
    (List.length l < n)%nat -> pop_many n (Stack.of_list l) = Raise IndexError.
Proof.
  induction n as [| n IH]; intros l Hn; [lia |].
  cbn [pop_many].
  destruct (snoc_cases l) as [-> | (l0 & e & ->)]; [reflexivity |].
  rewrite pop_of_list_snoc. cbn [outcome_bind fst snd].
  rewrite IH; [reflexivity |].
  rewrite length_app in Hn. simpl in Hn. lia.
Qed.

(** Last in, first out, for any number of elements: after pushing [es]
    in order, as many calls of [pop] return them in reverse order and
    leave the stack as it was before; one more [pop] on a stack that was
    empty before raises [IndexError]. *)
Theorem stack_pops_reverse_pushes :
  forall (A : Type) (ops : list (Stack.op A)) (es : list A),
    let s := Stack.run ops Stack.init in
    pop_many (List.length es) (push_all es s) = Ok (rev es, s)
    /\ pop_many (S (List.length es)) (push_all es Stack.init)
       = Raise IndexError.
Proof.
  intros A ops es s.
  destruct (run_of_list ops (@nil A)) as [l Hl].
  change (Stack.of_list (@nil A)) with (@Stack.init A) in Hl.
  subst s. rewrite Hl. split.
  - now rewrite push_all_of_list, pop_many_of_list.
  - change (@Stack.init A) with (Stack.of_list (@nil A)).
    rewrite push_all_of_list. apply pop_many_underflow. simpl. lia.
Qed.

(** ** [func_entropy] for any bound *)

Lemma is_float_largest : is_float (inject_Z (2 ^ 1024 - 2 ^ 971)).
Proof.
  exists (2 ^ 53 - 1), 971. split; [lia |]. split; [reflexivity |].
  rewrite pow2_Z by lia. rewrite <- inject_Z_mult.
  apply inject_Z_injective. reflexivity.
Qed.

(** [func_entropy] raises [ZeroDivisionError] exactly when [max_calls]
    is 0 and otherwise nothing but the [OverflowError] of the division;
    it raises nothing when the quotient lies between 0 and the largest
    float; every score it returns is a float between 0 and 1, whatever
    the sign of its arguments. *)
Theorem func_entropy_error_and_range :
  forall n_calls max_calls : Z,
    match func_entropy n_calls max_calls with
    | Ok q => max_calls <> 0 /\ is_float q /\ (0 <= q <= 1)%Q
    | Raise e =>
        (max_calls = 0 /\ e = ZeroDivisionError)
        \/ (max_calls <> 0 /\ e = OverflowError
            /\ ~ (0 <= n_calls <= max_calls * (2 ^ 1024 - 2 ^ 971)))
    end.
Proof.
  intros n m. unfold func_entropy, truediv.
  destruct (Z.eqb_spec m 0) as [-> | Hm]; [left; now split |].
  destruct (Qle_bool (pow2 1024) _) eqn:Hov; cbn [outcome_bind].
  - right. split; [exact Hm |]. split; [reflexivity |]. intros [Hn Hnm].
    assert (Hmpos : 0 < m) by nia.
    apply Qle_bool_iff in Hov.
    assert (Hq : (0 <= inject_Z n / inject_Z m)%Q).
    { apply Qle_shift_div_l.
      - change 0%Q with (inject_Z 0). now rewrite <- Zlt_Qlt.
      - rewrite Qmult_0_l. change 0%Q with (inject_Z 0).
        now rewrite <- Zle_Qle. }
    assert (Hle : (inject_Z n / inject_Z m
                   <= inject_Z (2 ^ 1024 - 2 ^ 971))%Q).
    { apply Qle_shift_div_r.
      - change 0%Q with (inject_Z 0). now rewrite <- Zlt_Qlt.
      - rewrite <- inject_Z_mult, <- Zle_Qle. lia. }
    pose proof (round64_le_float _ _ is_float_largest Hq Hle) as Hr.
    pose proof (round64_nonneg _ Hq) as Hr0.
    rewrite Qabs_pos in Hov by exact Hr0.
    assert (F : (inject_Z (2 ^ 1024 - 2 ^ 971) < pow2 1024)%Q).
    { rewrite pow2_Z by lia. rewrite <- Zlt_Qlt. reflexivity. }
    lra.
  - split; [exact Hm |]. apply score_in_unit.
Qed.

(** For a positive bound, whenever [func_entropy] returns: the score is
    1 when there is no call at all (or a negative number of them) and 0
    as soon as the calls reach the bound. *)
Theorem func_entropy_ends :
  forall (n_calls max_calls : Z) (q : Q),
    0 < max_calls ->
    func_entropy n_calls max_calls = Ok q ->
    (n_calls <= 0 -> (q == 1)%Q) /\ (max_calls <= n_calls -> (q == 0)%Q).
Proof.
  intros n m q Hm H. unfold func_entropy, truediv in H.
  destruct (Z.eqb_spec m 0) as [-> | _]; [lia |].
  destruct (Qle_bool (pow2 1024) _); [discriminate |].
  cbn [outcome_bind] in H. injection H as <-.
  set (t := round64 (inject_Z n / inject_Z m)).
  assert (HM : (0 < inject_Z m)%Q)
    by (change 0%Q with (inject_Z 0); now rewrite <- Zlt_Qlt).
  split; intros Hn.
  - assert (Ht : (t <= 0)%Q).
    { apply round64_nonpos. apply Qle_shift_div_r; [exact HM |].
      rewrite Qmult_0_l. change 0%Q with (inject_Z 0).
      now rewrite <- Zle_Qle. }
    assert (Hs : (1 <= fsub 1 t)%Q).
    { apply round64_ge_float; [apply is_float_1 | discriminate | lra]. }
    destruct (Q.min_spec (fsub 1 t) 1) as [[C Hmin] | [C Hmin]];
      destruct (Q.max_spec (Qmin (fsub 1 t) 1) 0) as [[C' Hmax] | [C' Hmax]];
      rewrite Hmax; rewrite Hmin in *; lra.
  - assert (Ht : (1 <= t)%Q).
    { apply round64_ge_float; [apply is_float_1 | discriminate |].
      apply Qle_shift_div_l; [exact HM |].
      rewrite Qmult_1_l. now rewrite <- Zle_Qle. }
    assert (Hs : (fsub 1 t <= 0)%Q) by (apply round64_nonpos; lra).
    destruct (Q.min_spec (fsub 1 t) 1) as [[C Hmin] | [C Hmin]];
      destruct (Q.max_spec (Qmin (fsub 1 t) 1) 0) as [[C' Hmax] | [C' Hmax]];
      rewrite Hmax; rewrite Hmin in *; lra.
Qed.

Lemma func_entropy_ends_witness :
  0 < 10
  /\ func_entropy 12 10 = Ok 0%Q
  /\ (12 <= 0 -> (0 == 1)%Q) /\ (10 <= 12 -> (0 == 0)%Q).
Proof.
  assert (H1 : 0 < 10) by lia.
  assert (H2 : func_entropy 12 10 = Ok 0%Q) by (vm_compute; reflexivity).
  split; [exact H1 |]. split; [exact H2 |].
  exact (func_entropy_ends 12 10 0%Q H1 H2).
Defined.

(** ** Scores of classes *)

Lemma fmul_unit x y :
  in_unit x -> in_unit y ->
  in_unit (fmul x y) /\ (fmul x y <= x)%Q /\ (fmul x y <= y)%Q.
Proof.
  intros [Fx [Hx0 Hx1]] [Fy [Hy0 Hy1]]. unfold fmul.
  assert (H0 : (0 <= x * y)%Q) by nra.
  assert (Hlx : (round64 (x * y) <= x)%Q)
    by (apply round64_le_float; [exact Fx | exact H0 | nra]).
  assert (Hly : (round64 (x * y) <= y)%Q)
    by (apply round64_le_float; [exact Fy | exact H0 | nra]).
  pose proof (round64_nonneg _ H0) as Hn.
  repeat split; try assumption; [apply round64_is_float | lra].
Qed.

Lemma fold_mult_bounds (xs : list Q) :
  forall x : Q,
    in_unit x -> Forall in_unit xs ->
    in_unit (fold_left fmul xs x)
    /\ (fold_left fmul xs x <= x)%Q
    /\ Forall (fun q => (fold_left fmul xs x <= q)%Q) xs.
Proof.
  induction xs as [| y xs IH]; intros x Hx Hxs; cbn [fold_left].
  - repeat split; try apply Hx; [apply Qle_refl | constructor].
  - apply Forall_cons_iff in Hxs. destruct Hxs as [Hy Hxs].
    destruct (fmul_unit x y Hx Hy) as (Hxy & Hlx & Hly).
    destruct (IH (fmul x y) Hxy Hxs) as (Hp & Hle & Hall).
    split; [exact Hp |]. split.
    + now apply Qle_trans with (1 := Hle).
    + constructor; [| exact Hall].
      now apply Qle_trans with (1 := Hle).
Qed.

Lemma clamp_score_in_unit n : in_unit (clamp_score n).
Proof. apply score_in_unit. Qed.

(** When the body of a class leaves the scores [fs] on its context, at
    least one of them and each a float between 0 and 1, the class is
    reported
    with [len(fs)] functions and a score that is a float between 0 and
    1 and does not exceed the score of any of its functions; it is 0 as
    soon as one function scores 0. *)
Theorem class_score_bounded_by_functions :
  forall (gv : M unit) (name : string) (l : list context)
         (out out' : list report) (fs : list Q),
    gv (World (Stack.of_list (l ++ [ClassContext []])) out)
    = (Ok tt, World (Stack.of_list (l ++ [ClassContext fs])) out') ->
    fs <> [] ->
    Forall in_unit fs ->
    exists p,
      visit_ClassDef name gv (World (Stack.of_list l) out)
      = (Ok tt,
         World (Stack.of_list l)
           (out' ++ [Report KClass name (Z.of_nat (List.length fs)) p]))
      /\ in_unit p
      /\ Forall (fun q => (p <= q)%Q) fs
      /\ (Exists (fun q => (q == 0)%Q) fs -> (p == 0)%Q).
Proof.
  intros gv name l out out' fs Hgv Hne Hfs.
  destruct fs as [| f fs]; [congruence |].
  exists (product (f :: fs)).
  rewrite (visit_ClassDef_ok gv l out name f fs out' Hgv).
  split; [reflexivity |].
  apply Forall_cons_iff in Hfs. destruct Hfs as [Hf Hfs].
  destruct (fold_mult_bounds fs f Hf Hfs) as (Hp & Hle & Hall).
  cbn [product]. split; [exact Hp |].
  assert (Hbelow : Forall (fun q => (fold_left fmul fs f <= q)%Q) (f :: fs))
    by now constructor.
  split; [exact Hbelow |].
  intros Hz. apply Exists_exists in Hz. destruct Hz as (q & Hin & Hq).
  rewrite Forall_forall in Hbelow. specialize (Hbelow q Hin).
  destruct Hp as [_ Hp]. lra.
Qed.

Lemma class_score_bounded_by_functions_witness :
  let body := [FunctionDef "a" [Call []; Call []]; FunctionDef "b" [Call []]] in
  let fs := [clamp_score 2; clamp_score 1] in
  generic_visit body (World (Stack.of_list ([] ++ [ClassContext []])) [])
  = (Ok tt, World (Stack.of_list ([] ++ [ClassContext fs])) (results body))
  /\ fs <> []
  /\ Forall in_unit fs
  /\ exists p,
      visit_ClassDef "K" (generic_visit body) (World (Stack.of_list []) [])
      = (Ok tt,
         World (Stack.of_list [])
           (results body
            ++ [Report KClass "K" (Z.of_nat (List.length fs)) p]))
      /\ in_unit p
      /\ Forall (fun q => (p <= q)%Q) fs
      /\ (Exists (fun q => (q == 0)%Q) fs -> (p == 0)%Q).
Proof.
  intros body fs.
  assert (H1 : generic_visit body
                 (World (Stack.of_list ([] ++ [ClassContext []])) [])
               = (Ok tt,
                  World (Stack.of_list ([] ++ [ClassContext fs]))
                    (results body))) by (vm_compute; reflexivity).
  assert (H2 : fs <> []) by discriminate.
  assert (H3 : Forall in_unit fs)
    by (apply Forall_cons; [apply clamp_score_in_unit |];
        apply Forall_cons; [apply clamp_score_in_unit | apply Forall_nil]).
  split; [exact H1 |]. split; [exact H2 |]. split; [exact H3 |].
  exact (class_score_bounded_by_functions (generic_visit body) "K" [] []
           (results body) fs H1 H2 H3).
Defined.

(** *** Every printed value is in range *)

Lemma Zsum_cons z l : Zsum (z :: l) = z + Zsum l.
Proof. reflexivity. Qed.

Lemma Zsum_nonneg l : Forall (fun z => 0 <= z) l -> 0 <= Zsum l.
Proof.
  induction 1 as [| z l Hz _ IH]; [reflexivity |].
  rewrite Zsum_cons. lia.
Qed.

Lemma own_calls_node_nonneg n : 0 <= own_calls_node n.
Proof.
  induction n as [name cs IH | name cs IH | cs IH | cs IH]
    using node_forall_ind; cbn [own_calls_node]; try lia;
    apply Forall_map, Zsum_nonneg in IH; lia.
Qed.

Lemma own_calls_nonneg cs : 0 <= own_calls cs.
Proof.
  apply Zsum_nonneg, Forall_map, Forall_forall. intros n _.
  apply own_calls_node_nonneg.
Qed.

Lemma own_scores_node_in_unit n : Forall in_unit (own_scores_node n).
Proof.
  induction n as [name cs IH | name cs IH | cs IH | cs IH]
    using node_forall_ind; cbn [own_scores_node].
  - constructor.
  - apply Forall_cons; [apply clamp_score_in_unit | apply Forall_nil].
  - apply Forall_concat, Forall_map. exact IH.
  - apply Forall_concat, Forall_map. exact IH.
Qed.

Lemma own_scores_in_unit cs : Forall in_unit (own_scores cs).
Proof.
  apply Forall_concat, Forall_map, Forall_forall. intros n _.
  apply own_scores_node_in_unit.
Qed.

Lemma product_in_unit fs : Forall in_unit fs -> in_unit (product fs).
Proof.
  destruct fs as [| f fs]; intros H; cbn [product].
  - split; [apply is_float_1 | split; discriminate].
  - apply Forall_cons_iff in H. destruct H as [Hf Hfs].
    now destruct (fold_mult_bounds fs f Hf Hfs).
Qed.

Lemma results_node_in_range n : Forall report_in_range (results_node n).
Proof.
  induction n as [name cs IH | name cs IH | cs IH | cs IH]
    using node_forall_ind; cbn [results_node];
    try apply Forall_app; try split;
    try (apply Forall_concat, Forall_map; exact IH).
  - constructor; [| constructor]. split; cbn [r_count r_entropy].
    + unfold PyList.len. lia.
    + apply product_in_unit. apply (own_scores_in_unit cs).
  - constructor; [| constructor]. split; cbn [r_count r_entropy].
    + apply (own_calls_nonneg cs).
    + apply clamp_score_in_unit.
Qed.

(** Whatever the tree and however the traversal ends, every report
    that was printed carries a count that is not negative and a score
    between 0 and 1. *)
Theorem printed_reports_in_range :
  forall (tree : node) (r : report),
    In r (snd (analyze tree)) ->
    0 <= r_count r /\ (0 <= r_entropy r <= 1)%Q.
Proof.
  intros tree r Hin. unfold analyze, main in Hin.
  change Analyzer_init with (Stack.of_list (@nil context)) in Hin.
  pose proof (visit_post_visit tree [] []) as P.
  pose proof (results_node_in_range tree) as R.
  rewrite Forall_forall in R.
  destruct (visit tree _) as [[[] | e] w']; cbn [visit_post snd] in *.
  - destruct P as [_ ->]. destruct (R r Hin) as [Hc [_ Hr]]. now split.
  - destruct P as (_ & _ & c1 & s1 & rest & pre & suf & -> & Hrs).
    assert (Hin' : In r (results_node tree))
      by (rewrite Hrs; apply in_or_app; now left).
    destruct (R r Hin') as [Hc [_ Hr]]. now split.
Qed.

Lemma printed_reports_in_range_witness :
  let tree := ClassDef "K" [FunctionDef "m" [Call []; Call []]] in
  let r := Report KFunction "m" 2 (clamp_score 2) in
  In r (snd (analyze tree))
  /\ 0 <= r_count r /\ (0 <= r_entropy r <= 1)%Q.
Proof.
  intros tree r.
  assert (H : In r (snd (analyze tree))) by (vm_compute; now left).
  split; [exact H |].
  exact (printed_reports_in_range tree r H).
Defined.

(** ** When the traversal completes *)

(** A count of calls whose tenth is at most the largest float, about
    [1.8e309] calls, never overflows. *)
Lemma no_overflow_below_largest n :
  0 <= n <= 10 * (2 ^ 1024 - 2 ^ 971) -> overflows n = false.
Proof.
  intros [Hn Hnm]. unfold overflows.
  assert (Hq : (0 <= inject_Z n / inject_Z 10)%Q).
  { apply Qle_shift_div_l; [reflexivity |].
    rewrite Qmult_0_l. change 0%Q with (inject_Z 0). now rewrite <- Zle_Qle. }
  assert (Hle : (inject_Z n / inject_Z 10 <= inject_Z (2 ^ 1024 - 2 ^ 971))%Q).
  { apply Qle_shift_div_r; [reflexivity |].
    rewrite <- inject_Z_mult, <- Zle_Qle. lia. }
  pose proof (round64_le_float _ _ is_float_largest Hq Hle) as Hr.
  pose proof (round64_nonneg _ Hq) as Hr0.
  destruct (Qle_bool (pow2 1024) _) eqn:Hov; [| reflexivity].
  apply Qle_bool_iff in Hov. rewrite Qabs_pos in Hov by exact Hr0.
  assert (F : (inject_Z (2 ^ 1024 - 2 ^ 971) < pow2 1024)%Q).
  { rewrite pow2_Z by lia. rewrite <- Zlt_Qlt. reflexivity. }
  lra.
Qed.

(** A visit started on a consistent stack runs to completion exactly on
    the trees in which no call has a class as its nearest scope, every
    class has at least one function whose nearest scope it is, and no
    function counts so many calls that the tenth of their number is
    beyond the largest float ([no_overflow_below_largest]).  When it
    does not, the exception is the [KeyError] of [visit_Call], the
    [TypeError] of [reduce] or the [OverflowError] of that division:
    the stack never underflows and no division by zero occurs. *)
Theorem visit_completes_iff_safe :
  forall (n : node) (l : list context) (out : list report),
    let r := fst (visit n (World (Stack.of_list l) out)) in
    (r = Ok tt <-> safe_node (top_kind l) n = true)
    /\ r <> Raise IndexError
    /\ r <> Raise ZeroDivisionError.
Proof.
  intros n l out r. subst r.
  pose proof (visit_post_visit n l out) as P.
  destruct (visit n _) as [[[] | e] w']; cbn [visit_post fst] in *.
  - destruct P as [Hs _]. repeat split; auto; discriminate.
  - destruct P as (Hs & He & _). repeat split.
    + discriminate.
    + congruence.
    + destruct He as [-> | [-> | ->]]; discriminate.
    + destruct He as [-> | [-> | ->]]; discriminate.
Qed.

(** *** Every call is counted once *)

Lemma reported_calls_app o1 o2 :
  reported_calls (o1 ++ o2) = reported_calls o1 + reported_calls o2.
Proof.
  unfold reported_calls. rewrite filter_app, map_app.
  induction (map r_count (filter is_function_report o1)) as [| z zs IH].
  - reflexivity.
  - cbn [app]. rewrite !Zsum_cons, IH. lia.
Qed.

Lemma reported_calls_class name count entropy :
  reported_calls [Report KClass name count entropy] = 0.
Proof. reflexivity. Qed.

Lemma reported_calls_function name count entropy :
  reported_calls [Report KFunction name count entropy] = count.
Proof. unfold reported_calls. cbn [filter is_function_report r_kind map r_count].
  rewrite Zsum_cons. cbn [Zsum fold_right]. lia.
Qed.

Lemma safe_in_class_no_own_call n :
  safe_node (Some KClass) n = true -> own_calls_node n = 0.
Proof.
  induction n as [name cs IH | name cs IH | cs IH | cs IH]
    using node_forall_ind; cbn [safe_node own_calls_node is_class negb andb];
    intros H; try reflexivity; try discriminate.
  induction IH as [| c cs Hc _ IHcs]; [reflexivity |].
  cbn [forallb map] in *. apply andb_prop in H. destruct H as [H1 H2].
  rewrite Zsum_cons, (Hc H1), (IHcs H2). reflexivity.
Qed.

Lemma total_calls_split_list k cs :
  Forall (fun n => forall k, safe_node k n = true ->
            total_calls n = own_calls_node n + reported_calls (results_node n))
    cs ->
  safe k cs = true ->
  Zsum (map total_calls cs) = own_calls cs + reported_calls (results cs).
Proof.
  unfold safe, own_calls, results.
  induction 1 as [| c cs Hc _ IH]; intros Hs; [reflexivity |].
  cbn [forallb map List.concat] in *. apply andb_prop in Hs.
  destruct Hs as [H1 H2].
  rewrite !Zsum_cons, reported_calls_app, (Hc k H1), (IH H2). lia.
Qed.

Lemma total_calls_split n :
  forall k, safe_node k n = true ->
    total_calls n = own_calls_node n + reported_calls (results_node n).
Proof.
  induction n as [name cs IH | name cs IH | cs IH | cs IH]
    using node_forall_ind; intros k Hs;
    cbn [safe_node total_calls own_calls_node results_node] in *.
  - apply andb_prop in Hs. destruct Hs as [Hs _].
    rewrite (total_calls_split_list (Some KClass) cs IH Hs).
    fold (results cs). rewrite reported_calls_app.
    assert (H0 : own_calls cs = 0).
    { unfold own_calls. unfold safe in Hs. clear IH.
      induction cs as [| c cs IHcs]; [reflexivity |].
      cbn [forallb map] in *. apply andb_prop in Hs. destruct Hs as [H1 H2].
      rewrite Zsum_cons, (safe_in_class_no_own_call c H1), (IHcs H2).
      reflexivity. }
    rewrite H0, reported_calls_class. lia.
  - apply andb_prop in Hs. destruct Hs as [Hs _].
    rewrite (total_calls_split_list (Some KFunction) cs IH Hs).
    fold (results cs) (own_calls cs).
    rewrite reported_calls_app, reported_calls_function. lia.
  - apply andb_prop in Hs. destruct Hs as [_ Hs].
    rewrite (total_calls_split_list k cs IH Hs).
    fold (results cs) (own_calls cs). lia.
  - rewrite (total_calls_split_list k cs IH Hs). reflexivity.
Qed.

(** When the traversal of a tree completes, every call of the tree has
    been counted for exactly one function, its nearest enclosing one,
    except the calls that no scope encloses, which are counted nowhere:
    the counts printed for functions add up to the number of [Call]
    nodes of the tree minus those at module level. *)
Theorem calls_counted_once :
  forall (tree : node) (out : list report),
    analyze tree = (Ok tt, out) ->
    reported_calls out = total_calls tree - own_calls_node tree.
Proof.
  intros tree out H. unfold analyze, main in H.
  change Analyzer_init with (Stack.of_list (@nil context)) in H.
  destruct (visit tree _) as [r w'] eqn:Hv. injection H as -> <-.
  apply visit_ok in Hv. destruct Hv as [Hs ->]. cbn [stdout app].
  rewrite (total_calls_split tree _ Hs). lia.
Qed.

Lemma calls_counted_once_witness :
  let tree :=
    Other [Call [];
           ClassDef "K"
             [FunctionDef "m" [Call [Call []]; FunctionDef "in" [Call []]]];
           FunctionDef "f" [Other [Call []]]] in
  analyze tree = (Ok tt, snd (analyze tree))
  /\ reported_calls (snd (analyze tree)) = 4
  /\ total_calls tree = 5
  /\ own_calls_node tree = 1
  /\ reported_calls (snd (analyze tree))
     = total_calls tree - own_calls_node tree.
Proof.
  intros tree. do 4 (split; [reflexivity |]).
  apply (calls_counted_once tree (snd (analyze tree))). reflexivity.
Defined.

(** ** What lies below the top of the stack *)

Lemma under_of_list base r l out :
  under base (r, World (Stack.of_list l) out)
  = (r, World (Stack.of_list (base ++ l)) out).
Proof. reflexivity. Qed.

Lemma generic_visit_frame cs :
  Forall (fun n => forall base l0 top out,
            visit n (World (Stack.of_list (base ++ l0 ++ [top])) out)
            = under base (visit n (World (Stack.of_list (l0 ++ [top])) out)))
    cs ->
  forall base l0 top out,
    generic_visit cs (World (Stack.of_list (base ++ l0 ++ [top])) out)
    = under base (generic_visit cs (World (Stack.of_list (l0 ++ [top])) out)).
Proof.
  induction 1 as [| c cs Hc _ IH]; intros base l0 top out.
  - reflexivity.
  - rewrite !generic_visit_cons, Hc.
    pose proof (visit_post_visit c (l0 ++ [top]) out) as P.
    destruct (visit c (World (Stack.of_list (l0 ++ [top])) out))
      as [[[] | e] w1]; cbn [visit_post] in P.
    + destruct P as [_ ->]. rewrite absorb_snoc, under_of_list.
      apply IH.
    + reflexivity.
Qed.

Lemma visit_frame n :
  forall base l0 top out,
    visit n (World (Stack.of_list (base ++ l0 ++ [top])) out)
    = under base (visit n (World (Stack.of_list (l0 ++ [top])) out)).
Proof.
  induction n as [name cs IH | name cs IH | cs IH | cs IH]
    using node_forall_ind; intros base l0 top out;
    pose proof (generic_visit_frame cs IH) as F; clear IH;
    cbn [visit]; fold (generic_visit cs).
  - (* ClassDef *)
    specialize (F base (l0 ++ [top]) (ClassContext []) out).
    pose proof (visit_post_generic_visit cs ((l0 ++ [top]) ++ [ClassContext []])
                  out) as P.
    destruct (generic_visit cs
                (World (Stack.of_list ((l0 ++ [top]) ++ [ClassContext []])) out))
      as [[[] | e] w1] eqn:G; cbn [visit_post] in P.
    + destruct P as [_ ->]. rewrite absorb_snoc in G, F.
      cbn [absorb_ctx app] in G, F. rewrite under_of_list in F.
      rewrite !app_assoc in F.
      destruct (own_scores cs) as [| f fs].
      * rewrite (visit_ClassDef_no_function _ _ _ _ _ G).
        rewrite app_assoc.
        rewrite (visit_ClassDef_no_function _ _ _ _ _ F), under_of_list.
        now rewrite app_assoc.
      * rewrite (visit_ClassDef_ok _ _ _ _ _ _ _ G).
        rewrite app_assoc.
        rewrite (visit_ClassDef_ok _ _ _ _ _ _ _ F), under_of_list.
        now rewrite app_assoc.
    + rewrite (visit_ClassDef_raise _ _ _ _ _ _ G).
      rewrite !app_assoc in F. rewrite app_assoc.
      now rewrite (visit_ClassDef_raise _ _ _ _ _ _ F).
  - (* FunctionDef *)
    specialize (F base (l0 ++ [top]) (FunctionContext 0) out).
    pose proof (visit_post_generic_visit cs
                  ((l0 ++ [top]) ++ [FunctionContext 0]) out) as P.
    destruct (generic_visit cs
                (World (Stack.of_list ((l0 ++ [top]) ++ [FunctionContext 0]))
                   out))
      as [[[] | e] w1] eqn:G; cbn [visit_post] in P.
    + destruct P as [_ ->]. rewrite absorb_snoc in G, F.
      cbn [absorb_ctx] in G, F. rewrite under_of_list in F.
      rewrite !app_assoc in F. rewrite Z.add_0_l in G, F.
      destruct (overflows (own_calls cs)) eqn:Hov.
      * rewrite (visit_FunctionDef_overflow _ _ _ _ _ _ G Hov).
        rewrite app_assoc.
        rewrite (visit_FunctionDef_overflow _ _ _ _ _ _ F Hov).
        rewrite under_of_list. now rewrite app_assoc.
      * rewrite (visit_FunctionDef_ok _ _ _ _ _ _ G Hov).
        rewrite app_assoc.
        rewrite (visit_FunctionDef_ok _ _ _ _ _ _ F Hov).
        rewrite under_of_list, !absorb_snoc. now rewrite app_assoc.
    + rewrite (visit_FunctionDef_raise _ _ _ _ _ _ G).
      rewrite !app_assoc in F. rewrite app_assoc.
      now rewrite (visit_FunctionDef_raise _ _ _ _ _ _ F).
  - (* Call *)
    destruct top as [fs | m].
    + rewrite app_assoc, !visit_Call_in_class, under_of_list.
      now rewrite app_assoc.
    + rewrite app_assoc, !visit_Call_in_function, <- app_assoc.
      apply F.
  - (* Other *)
    apply F.
Qed.

(** A visit looks at the top of the stack only.  Started with any
    contexts [base] below the context [top], it ends as it does on the
    one-element stack, prints the same reports, and hands [base] back
    untouched below whatever that run leaves. *)
Theorem visit_ignores_stack_below_top :
  forall (n : node) (base : list context) (top : context)
         (out : list report),
    let alone := visit n (World (Stack.of_list [top]) out) in
    visit n (World (Stack.of_list (base ++ [top])) out)
    = (fst alone,
       World (Stack.of_list (base ++ Stack.inner (stack (snd alone))))
         (stdout (snd alone))).
Proof.
  intros n base top out alone. subst alone.
  exact (visit_frame n base [] top out).
Qed.

Lemma scope_body_any_stack cs (pushed : context) l out :
  generic_visit cs (World (Stack.of_list (l ++ [pushed])) out)
  = under l (generic_visit cs (World (Stack.of_list [pushed]) out)).
Proof.
  apply (generic_visit_frame cs) with (l0 := []).
  apply Forall_forall. intros n _. apply visit_frame.
Qed.

(** What is printed for a function or a class, and whether its visit
    completes, does not depend on where the definition sits: on any
    consistent stack and after any output, the visit ends as [analyze]
    does on the definition alone and prints the same reports. *)
Theorem scope_reports_independent_of_context :
  forall (n : node) (l : list context) (out : list report),
    scope_kind_of n <> None ->
    let r := visit n (World (Stack.of_list l) out) in
    fst r = fst (analyze n) /\ stdout (snd r) = out ++ snd (analyze n).
Proof.
  intros n l out Hscope r. subst r. unfold analyze, main.
  change Analyzer_init with (Stack.of_list (@nil context)).
  rewrite (appends_visit n (Stack.of_list l) out).
  assert (H : fst (visit n (World (Stack.of_list l) []))
              = fst (visit n (World (Stack.of_list []) []))
              /\ stdout (snd (visit n (World (Stack.of_list l) [])))
                 = stdout (snd (visit n (World (Stack.of_list []) [])))).
  { destruct n as [name cs | name cs | cs | cs];
      try (exfalso; apply Hscope; reflexivity);
      cbn [visit]; fold (generic_visit cs).
    - pose proof (scope_body_any_stack cs (ClassContext []) l []) as F.
      pose proof (visit_post_generic_visit cs ([] ++ [ClassContext []]) [])
        as P.
      cbn [app] in P.
      destruct (generic_visit cs (World (Stack.of_list [ClassContext []]) []))
        as [[[] | e] w1] eqn:G; cbn [visit_post] in P.
      + destruct P as [_ ->].
        change [ClassContext []] with ([] ++ [ClassContext []]) in G, F.
        rewrite absorb_snoc in G, F. cbn [absorb_ctx app] in G, F.
        rewrite under_of_list in F.
        change [ClassContext (own_scores cs)]
          with ([] ++ [ClassContext (own_scores cs)]) in G.
        destruct (own_scores cs) as [| f fs].
        * rewrite (visit_ClassDef_no_function _ _ _ _ _ F).
          now rewrite (visit_ClassDef_no_function _ _ _ _ _ G).
        * rewrite (visit_ClassDef_ok _ _ _ _ _ _ _ F).
          now rewrite (visit_ClassDef_ok _ _ _ _ _ _ _ G).
      + rewrite (visit_ClassDef_raise _ _ _ _ _ _ F).
        change [ClassContext []] with ([] ++ [ClassContext []]) in G.
        now rewrite (visit_ClassDef_raise _ _ _ _ _ _ G).
    - pose proof (scope_body_any_stack cs (FunctionContext 0) l []) as F.
      pose proof (visit_post_generic_visit cs ([] ++ [FunctionContext 0]) [])
        as P.
      cbn [app] in P.
      destruct (generic_visit cs (World (Stack.of_list [FunctionContext 0]) []))
        as [[[] | e] w1] eqn:G; cbn [visit_post] in P.
      + destruct P as [_ ->].
        change [FunctionContext 0] with ([] ++ [FunctionContext 0]) in G, F.
        rewrite absorb_snoc in G, F. cbn [absorb_ctx app] in G, F.
        rewrite under_of_list in F.
        rewrite Z.add_0_l in G, F.
        change [FunctionContext (own_calls cs)]
          with ([] ++ [FunctionContext (own_calls cs)]) in G.
        destruct (overflows (own_calls cs)) eqn:Hov.
        -- rewrite (visit_FunctionDef_overflow _ _ _ _ _ _ F Hov).
           now rewrite (visit_FunctionDef_overflow _ _ _ _ _ _ G Hov).
        -- rewrite (visit_FunctionDef_ok _ _ _ _ _ _ F Hov).
           now rewrite (visit_FunctionDef_ok _ _ _ _ _ _ G Hov).
      + rewrite (visit_FunctionDef_raise _ _ _ _ _ _ F).
        change [FunctionContext 0] with ([] ++ [FunctionContext 0]) in G.
        now rewrite (visit_FunctionDef_raise _ _ _ _ _ _ G). }
  destruct H as [H1 H2].
  destruct (visit n (World (Stack.of_list l) [])) as [r1 w1].
  destruct (visit n (World (Stack.of_list []) [])) as [r2 w2].
  cbn [fst snd stdout] in *. split; [exact H1 | now rewrite H2].
Qed.

Lemma scope_reports_independent_of_context_witness :
  let n := FunctionDef "f" [Call []; ClassDef "K" [Other []]] in
  let l := [ClassContext [1 # 2]; FunctionContext 7; ClassContext []] in
  let out := [Report KFunction "before" 3 (7 # 10)] in
  let r := visit n (World (Stack.of_list l) out) in
  scope_kind_of n <> None
  /\ fst r = fst (analyze n) /\ stdout (snd r) = out ++ snd (analyze n).
Proof.
  intros n l out r.
  assert (H : scope_kind_of n <> None) by discriminate.
  split; [exact H |].
  exact (scope_reports_independent_of_context n l out H).
Defined.

(** ** Module-level statements, one after the other *)

Lemma generic_visit_app cs1 cs2 w :
  generic_visit (cs1 ++ cs2) w
  = match generic_visit cs1 w with
    | (Ok _, w1) => generic_visit cs2 w1
    | (Raise e, w1) => (Raise e, w1)
    end.
Proof.
  revert w. induction cs1 as [| c cs1 IH]; intros w.
  - reflexivity.
  - cbn [app]. rewrite !generic_visit_cons.
    destruct (visit c w) as [[[] | e] w1]; [apply IH | reflexivity].
Qed.

(** Analysing a module is analysing its statements in order: the
    statements [cs1 ++ cs2] give what [cs1] gives followed, if [cs1]
    completes, by what a fresh analyzer gives on [cs2]; once a
    statement has been analysed to completion, nothing of it is left on
    the stack.  An exception in [cs1] ends the run there. *)
Theorem module_statements_compose :
  forall (cs1 cs2 : list node) (console : list report),
    main (Other (cs1 ++ cs2)) console
    = match main (Other cs1) console with
      | (Ok _, console1) => main (Other cs2) console1
      | (Raise e, console1) => (Raise e, console1)
      end.
Proof.
  intros cs1 cs2 console. unfold main. cbn [visit].
  fold (generic_visit (cs1 ++ cs2)) (generic_visit cs1) (generic_visit cs2).
  rewrite generic_visit_app.
  change Analyzer_init with (Stack.of_list (@nil context)).
  pose proof (visit_post_generic_visit cs1 [] console) as P.
  destruct (generic_visit cs1 _) as [[[] | e] w1]; cbn [visit_post] in P.
  - destruct P as [_ ->]. reflexivity.
  - reflexivity.
Qed.

(** ** Pushes and pops balance *)

Lemma length_absorb calls scores l :
  List.length (absorb calls scores l) = List.length l.
Proof.
  rewrite <- (length_map ctx_kind), kinds_absorb. apply length_map.
Qed.

(** However a visit ends, it leaves the stack consistent and at least as
    deep as it found it: it pops nothing it has not pushed.  When it
    completes, the stack has exactly the depth it had and holds contexts
    of the same kinds. *)
Theorem visit_stack_balanced :
  forall (n : node) (l : list context) (out : list report),
    let r := visit n (World (Stack.of_list l) out) in
    let s := stack (snd r) in
    Stack.depth s = Stack.len s - 1
    /\ Stack.len (Stack.of_list l) <= Stack.len s
    /\ (fst r = Ok tt ->
        Stack.len s = Stack.len (Stack.of_list l)
        /\ map ctx_kind (Stack.inner s) = map ctx_kind l).
Proof.
  intros n l out r s. subst s r.
  pose proof (visit_post_visit n l out) as P.
  destruct (visit n _) as [[[] | e] w']; cbn [visit_post fst snd] in *.
  - destruct P as [_ ->]. cbn [stack]. split; [reflexivity |].
    rewrite !len_of_list. unfold PyList.len. rewrite length_absorb.
    split; [lia |]. intros _. split; [reflexivity | apply kinds_absorb].
  - destruct P as (_ & _ & c1 & s1 & rest & pre & suf & -> & _).
    cbn [stack]. split; [reflexivity |].
    rewrite !len_of_list. unfold PyList.len.
    rewrite length_app, length_absorb. split; [lia | discriminate].
Qed.

Lemma visit_stack_balanced_witness :
  let n := Other [Call []; FunctionDef "f" [Call []]] in
  let l := [ClassContext []; FunctionContext 2] in
  let r := visit n (World (Stack.of_list l) []) in
  let s := stack (snd r) in
  fst r = Ok tt
  /\ Stack.len s = Stack.len (Stack.of_list l)
  /\ map ctx_kind (Stack.inner s) = map ctx_kind l.
Proof.
  intros n l r s. split; [reflexivity |].
  apply (visit_stack_balanced n l []). reflexivity.
Defined.

(** ** [round64] against the Standard Library's binary64 *)

(** On the numbers the analyzer computes with, [round64] gives what the
    IEEE 754 operations of [SpecFloat] give: the tenth of a count and
    its difference to 1 for the first thousand counts, the products of
    two scores and of a score and 100, and quotients of large integers,
    up to the point where the quotient is no finite float. *)
Example round64_agrees_with_SpecFloat :
  forallb
    (fun n =>
       same_number (round64 (inject_Z n / inject_Z 10)) (SF_tenth n)
       && same_number (fsub 1 (round64 (inject_Z n / inject_Z 10)))
            (SF_score n))
    (map Z.of_nat (seq 0 1000))
  = true
  /\ forallb
       (fun a =>
          forallb
            (fun b =>
               same_number (fmul (clamp_score a) (clamp_score b))
                 (SFmul 53 1024 (SF_score a) (SF_score b)))
            (map Z.of_nat (seq 0 11))
          && same_number (fmul (clamp_score a) 100)
               (SFmul 53 1024 (SF_score a) (SF_of_Z 100)))
       (map Z.of_nat (seq 0 11))
     = true
  /\ forallb
       (fun k =>
          same_number (round64 (inject_Z (10 ^ k) / inject_Z 7))
            (SFdiv 53 1024 (SF_of_Z (10 ^ k)) (SF_of_Z 7)))
       (map Z.of_nat (seq 0 309))
     = true
  /\ SFdiv 53 1024 (SF_of_Z (10 ^ 400)) (SF_of_Z 1) = S754_infinity false
  /\ truediv (10 ^ 400) 1 = Raise OverflowError.
Proof.
  split; [vm_compute; reflexivity |]. split; [vm_compute; reflexivity |].
  split; [vm_compute; reflexivity |]. split; vm_compute; reflexivity.
Qed.

(** ** The percentage shown *)

Lemma is_float_100 : is_float 100.
Proof. exists 100, 0. repeat split; try lia. Qed.

Lemma percent_unit v : in_unit v -> 0 <= percent v <= 100.
Proof.
  intros [_ [H0 H1]]. unfold percent, fmul.
  assert (Hp0 : (0 <= v * 100)%Q) by nra.
  pose proof (round64_nonneg _ Hp0) as Hn.
  assert (Hle : (round64 (v * 100) <= 100)%Q)
    by (apply round64_le_float; [apply is_float_100 | exact Hp0 | nra]).
  set (p := round64 (v * 100)) in *.
  assert (Hnum : 0 <= Qnum p) by (unfold Qle in Hn; simpl in Hn; lia).
  rewrite Z.quot_div_nonneg by (try exact Hnum; reflexivity).
  replace (Qnum p / Z.pos (Qden p)) with (Qfloor p) by (now destruct p).
  pose proof (Qfloor_resp_le _ _ Hn) as F0.
  pose proof (Qfloor_resp_le _ _ Hle) as F1.
  change (Qfloor 0) with 0 in F0. change (Qfloor 100) with 100 in F1. lia.
Qed.

(** Whatever the tree and however the traversal ends, the percentage
    shown for a report, [percent] of its entropy, lies between 0 and
    100; it drops the fraction of the rounded product, so that eight
    calls show 19 and not 20. *)
Theorem printed_percent_in_range :
  forall (tree : node) (r : report),
    In r (snd (analyze tree)) ->
    0 <= percent (r_entropy r) <= 100
    /\ percent (clamp_score 8) = 19
    /\ percent (clamp_score 0) = 100
    /\ percent (clamp_score 10) = 0.
Proof.
  intros tree r Hin. split; [| repeat split; vm_compute; reflexivity].
  apply percent_unit.
  unfold analyze, main in Hin.
  change Analyzer_init with (Stack.of_list (@nil context)) in Hin.
  pose proof (visit_post_visit tree [] []) as P.
  pose proof (results_node_in_range tree) as R.
  rewrite Forall_forall in R.
  destruct (visit tree _) as [[[] | e] w']; cbn [visit_post snd] in *.
  - destruct P as [_ ->]. now destruct (R r Hin).
  - destruct P as (_ & _ & c1 & s1 & rest & pre & suf & -> & Hrs).
    assert (Hin' : In r (results_node tree))
      by (rewrite Hrs; apply in_or_app; now left).
    now destruct (R r Hin').
Qed.

Lemma printed_percent_in_range_witness :
  let tree := ClassDef "K" [FunctionDef "m" (repeat (Call []) 8)] in
  let r := Report KFunction "m" 8 (clamp_score 8) in
  In r (snd (analyze tree))
  /\ 0 <= percent (r_entropy r) <= 100
  /\ percent (r_entropy r) = 19.
Proof.
  intros tree r.
  assert (H : In r (snd (analyze tree))) by (vm_compute; now left).
  split; [exact H |].
  destruct (printed_percent_in_range tree r H) as (H1 & H2 & _).
  split; [exact H1 | exact H2].
Defined.
